(** * gi-voxels: voxelization merge and cone tracing

    A shallow embedding of the two core pieces of the repository:

    - [src/gi/voxelconetracer.js]: the [VoxelConeTracer] class, its
      constructor, the orthographic frustums built by [voxelize] and the
      CPU-side merge of the three axis captures into the 3D volume;
    - [src/materials/conetracershader.js]: the GLSL functions of the
      fragment shader, [coneTrace] first.

    JavaScript integers are modelled in [Z], a [Uint8Array] as a list of
    bytes held in [Z] with the wrap-around of a store written out, the
    JavaScript doubles of the frustum arithmetic as exact rationals [Q],
    and the GLSL floats of the shader by their values in [R]: with exact
    operators in the first model of [coneTrace], and with operators
    whose results are arbitrary in the second ([Rounded]), on which the
    statements about the number of iterations are made. *)

From Stdlib Require Import ZArith QArith Reals Lra Lia Psatz.
From Stdlib Require Floats.SpecFloat.
From stdpp Require Import base tactics list.

Open Scope Z_scope.

(** ** Typed arrays *)

(** A [Uint8Array]: fixed length, every element a byte. *)
Abbreviation Uint8Array := (list Z).

(** [new Uint8Array(n)]: [n] zero bytes. *)
Definition u8_new (n : Z) : Uint8Array := replicate (Z.to_nat n) 0.

(** [a[i]] read as a number. An index outside the array reads
    [undefined]; both uses in the source ([undefined > 0] is false, and
    storing [undefined] into a [Uint8Array] stores 0) treat it as 0. *)
Definition u8_get (a : Uint8Array) (i : Z) : Z :=
  if i <? 0 then 0 else default 0 (a !! Z.to_nat i).

(** [a[i] = v]: the value is reduced modulo 256; a store outside the
    array is ignored (a typed array never grows). *)
Definition u8_set (a : Uint8Array) (i v : Z) : Uint8Array :=
  if i <? 0 then a else <[Z.to_nat i := v mod 256]> a.

(** ** Loops *)

(** [for (let k = 0; k < n; k++) body]: a left fold of the body over the
    successive values of the counter. *)
Definition for_loop {S : Type} (n : Z) (body : S → Z → S) (init : S) : S :=
  foldl body init (seqZ 0 n).

(** ** The voxel cone tracer object *)

(** A 2D-array texture as the merge sees it: [tex layer j] is byte [j] of
    what [readPixels] returns for that layer (RGBA, row-major). *)
Definition Texture2DArray := Z → Z → Z.

(** The fields of [VoxelConeTracer] the voxelization touches.
    [voxelTexture] is level 0 of the 3D texture, as last uploaded. *)
Record VoxelConeTracer := mkVCT {
  voxelTextureSize : nat;
  xTexture : Texture2DArray;
  yTexture : Texture2DArray;
  zTexture : Texture2DArray;
  voxelTexture : Uint8Array
}.

(** [constructor(sceneScale, cubeSize, resolution, ...)]. Only
    [resolution] is stored; [sceneScale] is not assigned to any field.
    The four textures are allocated with null data, that is, zeroed. *)
Definition constructor (sceneScale cubeSize : Q) (resolution : nat)
  : VoxelConeTracer :=
  let n := Z.of_nat resolution in
  {| voxelTextureSize := resolution;
     xTexture := λ _ _, 0;
     yTexture := λ _ _, 0;
     zTexture := λ _ _, 0;
     voxelTexture := u8_new (n * n * n * 4) |}.

(** ** Orthographic frustums of [voxelize] *)

(** The six arguments of [new OrthographicCamera(...)]. *)
Record OrthoFrustum := mkFrustum {
  left : Q; right : Q; bottom : Q; top : Q; near : Q; far : Q
}.

(** The frustum of slice [i]; the three render loops (Y, Z, X) build it
    with the same six expressions. [sceneScale] is the local constant of
    [voxelize]. *)
Definition orthoCamera (this : VoxelConeTracer) (i : Z) : OrthoFrustum :=
  let sceneScale : Q := 3000%Q in
  let size : Q := inject_Z (Z.of_nat (voxelTextureSize this)) in
  {| left := - sceneScale;
     right := sceneScale;
     bottom := - sceneScale;
     top := sceneScale;
     near := sceneScale - (inject_Z i / size) * sceneScale * 2;
     far := sceneScale - (inject_Z (i + 1) / size) * sceneScale * 2 |}%Q.

(** ** The merge of the three captures *)

Section Merge.

(** [const vSize = this.voxelTextureSize]. *)
Variable vSize : Z.

(** [slice = new Uint8Array(vSize * vSize * 4)], filled by
    [readPixels] from layer [i] of the texture. *)
Definition readPixels (tex : Texture2DArray) (i : Z) : Uint8Array :=
  (λ j, tex i j mod 256) <$> seqZ 0 (vSize * vSize * 4).

(** *** X texture *)

(** The loop header [if (k > 0 && k % vSize === 0) rowCount++]. *)
Definition next_rowCount (rowCount k : Z) : Z :=
  if (0 <? k) && (k mod vSize =? 0) then rowCount + 1 else rowCount.

(** The voxel index written at iteration [k] of slice [i]. *)
Definition voxelX (i k rowCount : Z) : Z :=
  0 + (vSize - 1) + k * vSize * vSize - i
  - (vSize * vSize * vSize * rowCount - vSize * rowCount).

(** Loop state: [data], [j], [rowCount]. *)
Definition bodyX (i : Z) (slice : Uint8Array)
    (st : Uint8Array * Z * Z) (k : Z) : Uint8Array * Z * Z :=
  let '(data, j, rowCount) := st in
  let rowCount := next_rowCount rowCount k in
  let data := u8_set data (voxelX i k rowCount * 4 + 0) (u8_get slice j) in
  let j := j + 1 in
  let data := u8_set data (voxelX i k rowCount * 4 + 1) (u8_get slice j) in
  let j := j + 1 in
  let data := u8_set data (voxelX i k rowCount * 4 + 2) (u8_get slice j) in
  let j := j + 1 in
  let data := u8_set data (voxelX i k rowCount * 4 + 3) (u8_get slice j) in
  let j := j + 1 in
  (data, j, rowCount).

Definition sliceX (tex : Texture2DArray) (data : Uint8Array) (i : Z)
  : Uint8Array :=
  let slice := readPixels tex i in
  (for_loop (vSize * vSize) (bodyX i slice) (data, 0, 0)).1.1.

Definition passX (tex : Texture2DArray) (data : Uint8Array) : Uint8Array :=
  for_loop vSize (sliceX tex) data.

(** *** Add to Y *)

(** The loop header [if (k > 0 && k % vSize === 0) { it = 0; rowCount++; }]. *)
Definition next_it_rowCount (it rowCount k : Z) : Z * Z :=
  if (0 <? k) && (k mod vSize =? 0) then (0, rowCount + 1)
  else (it, rowCount).

Definition voxelY (i it rowCount : Z) : Z :=
  i * vSize + vSize * vSize * rowCount + vSize - it - 1.

(** Loop state: [data], [j], [it], [rowCount]. *)
Definition bodyY (i : Z) (slice : Uint8Array)
    (st : Uint8Array * Z * Z * Z) (k : Z) : Uint8Array * Z * Z * Z :=
  let '(data, j, it, rowCount) := st in
  let '(it, rowCount) := next_it_rowCount it rowCount k in
  let data :=
    if 0 <? u8_get slice (j + 0)
    then u8_set data (voxelY i it rowCount * 4 + 0) (u8_get slice (j + 0))
    else data in
  let data :=
    if 0 <? u8_get slice (j + 1)
    then u8_set data (voxelY i it rowCount * 4 + 1) (u8_get slice (j + 1))
    else data in
  let data :=
    if 0 <? u8_get slice (j + 2)
    then u8_set data (voxelY i it rowCount * 4 + 2) (u8_get slice (j + 2))
    else data in
  let data :=
    if 0 <? u8_get slice (j + 3)
    then u8_set data (voxelY i it rowCount * 4 + 3) (u8_get slice (j + 3))
    else data in
  let j := j + 4 in
  let it := it + 1 in
  (data, j, it, rowCount).

Definition sliceY (tex : Texture2DArray) (data : Uint8Array) (i : Z)
  : Uint8Array :=
  let slice := readPixels tex i in
  (for_loop (vSize * vSize) (bodyY i slice) (data, 0, 0, 0)).1.1.1.

Definition passY (tex : Texture2DArray) (data : Uint8Array) : Uint8Array :=
  for_loop vSize (sliceY tex) data.

(** *** Add to Z texture *)

(** The byte index written at iteration [j] of slice [i]. *)
Definition byteZ (i j : Z) : Z := vSize * vSize * i * 4 + j.

Definition bodyZ (i : Z) (slice : Uint8Array) (data : Uint8Array) (j : Z)
  : Uint8Array :=
  if 0 <? u8_get slice j then u8_set data (byteZ i j) (u8_get slice j) else data.

Definition sliceZ (tex : Texture2DArray) (data : Uint8Array) (i : Z)
  : Uint8Array :=
  let slice := readPixels tex i in
  for_loop (vSize * vSize * 4) (bodyZ i slice) data.

Definition passZ (tex : Texture2DArray) (data : Uint8Array) : Uint8Array :=
  for_loop vSize (sliceZ tex) data.

End Merge.

(** Lines 253-325 of [voxelize]: a fresh zeroed [data], the three passes
    in the order X, Y, Z, and the upload of [data] as level 0 of the 3D
    texture. *)
Definition merge_data (this : VoxelConeTracer) : Uint8Array :=
  let vSize := Z.of_nat (voxelTextureSize this) in
  let data := u8_new (vSize * vSize * vSize * 4) in
  let data := passX vSize (xTexture this) data in
  let data := passY vSize (yTexture this) data in
  let data := passZ vSize (zTexture this) data in
  data.

Definition merge (this : VoxelConeTracer) : VoxelConeTracer :=
  {| voxelTextureSize := voxelTextureSize this;
     xTexture := xTexture this;
     yTexture := yTexture this;
     zTexture := zTexture this;
     voxelTexture := merge_data this |}.

(** ** Derived notions used to state the merge properties *)

(** The flat addressing of the volume: voxel [(x, y, z)]. *)
Definition voxel_index (vSize x y z : Z) : Z := x + y * vSize + z * vSize * vSize.

(** Channel [ch] of pixel [k] of layer [i], as [readPixels] returns it. *)
Definition texel (vSize : Z) (tex : Texture2DArray) (i k ch : Z) : Z :=
  u8_get (readPixels vSize tex i) (k * 4 + ch).

(** The value of [rowCount] in the body of iteration [k] of the X loop:
    the loop header run for the iterations [0..k]. *)
Definition rowCountX (vSize k : Z) : Z :=
  for_loop (k + 1) (next_rowCount vSize) 0.

(** The voxel index the X pass writes for pixel [k] of slice [i]. *)
Definition writtenX (vSize i k : Z) : Z := voxelX vSize i k (rowCountX vSize k).

(** The counters [(it, rowCount)] in the body of iteration [k] of the Y
    loop: header and trailing [it++] of the iterations before [k], then
    the header of iteration [k]. *)
Definition countersY_step (vSize : Z) (c : Z * Z) (k : Z) : Z * Z :=
  let '(it, rowCount) := next_it_rowCount vSize c.1 c.2 k in
  (it + 1, rowCount).

Definition countersY (vSize k : Z) : Z * Z :=
  let before := for_loop k (countersY_step vSize) (0, 0) in
  next_it_rowCount vSize before.1 before.2 k.

(** The voxel index the Y pass writes for pixel [k] of slice [i]. *)
Definition writtenY (vSize i k : Z) : Z :=
  voxelY vSize i (countersY vSize k).1 (countersY vSize k).2.

(** The voxel whose four channels the iterations [j = 4k .. 4k+3] of
    slice [i] of the Z pass address. *)
Definition writtenZ (vSize i k : Z) : Z := byteZ vSize i (k * 4) / 4.

(** Two tracers hold the same captures: same resolution, and the same
    bytes in every texel that [readPixels] reads. *)
Definition same_captures (this this' : VoxelConeTracer) : Prop :=
  voxelTextureSize this = voxelTextureSize this' ∧
  let vSize := Z.of_nat (voxelTextureSize this) in
  ∀ i j, 0 ≤ i < vSize → 0 ≤ j < vSize * vSize * 4 →
    xTexture this i j = xTexture this' i j ∧
    yTexture this i j = yTexture this' i j ∧
    zTexture this i j = zTexture this' i j.

(** Modelled from the spec's words: a later axis's channel value
    overwrites the value already present only if it is non-zero. *)
Definition spec_overwrite (present later : Z) : Z :=
  if later =? 0 then present else later.

(** Modelled from the spec's words: X, then Y on top, then Z on top. *)
Definition spec_combine (x y z : Z) : Z :=
  spec_overwrite (spec_overwrite x y) z.

(** A store guarded by a test on the stored value, as a step over a list
    of (byte index, value) pairs. *)
Definition store_if (c : Z → bool) (data : Uint8Array) (w : Z * Z)
  : Uint8Array :=
  if c w.2 then u8_set data w.1 w.2 else data.

(** The four stores of one iteration of the X and Y loops, channel by
    channel: pixel [k] of [slice] to the voxel [voxel]. *)
Definition stores4 (voxel : Z) (slice : Uint8Array) (k : Z) : list (Z * Z) :=
  [ (voxel * 4 + 0, u8_get slice (k * 4 + 0));
    (voxel * 4 + 1, u8_get slice (k * 4 + 1));
    (voxel * 4 + 2, u8_get slice (k * 4 + 2));
    (voxel * 4 + 3, u8_get slice (k * 4 + 3)) ].

(** All the stores of a pass, in program order. *)
Definition storesX (vSize : Z) (tex : Texture2DArray) : list (Z * Z) :=
  i ← seqZ 0 vSize; k ← seqZ 0 (vSize * vSize);
  stores4 (writtenX vSize i k) (readPixels vSize tex i) k.

Definition storesY (vSize : Z) (tex : Texture2DArray) : list (Z * Z) :=
  i ← seqZ 0 vSize; k ← seqZ 0 (vSize * vSize);
  stores4 (writtenY vSize i k) (readPixels vSize tex i) k.

Definition storesZ (vSize : Z) (tex : Texture2DArray) : list (Z * Z) :=
  i ← seqZ 0 vSize; j ← seqZ 0 (vSize * vSize * 4);
  [ (byteZ vSize i j, u8_get (readPixels vSize tex i) j) ].

(** ** A test tracer *)

(** Resolution 2, captures with distinct bytes, zero in some channels of
    the Y and Z captures, and a stale volume. *)
Definition demo_x : Texture2DArray := λ i j, 100 + 16 * i + j.
Definition demo_y : Texture2DArray :=
  λ i j, if j mod 3 =? 0 then 0 else 50 + 16 * i + j.
Definition demo_z : Texture2DArray :=
  λ i j, if j mod 2 =? 0 then 0 else 200 + 16 * i + j.
Definition demo_tracer : VoxelConeTracer :=
  mkVCT 2 demo_x demo_y demo_z [7; 7; 7].

(** ** The cone tracer of the fragment shader *)

Open Scope R_scope.

Record vec3 := mkvec3 { vx : R; vy : R; vz : R }.
Record vec4 := mkvec4 { rgb : vec3; a : R }.

Definition vec3_add (p q : vec3) : vec3 :=
  mkvec3 (vx p + vx q) (vy p + vy q) (vz p + vz q).
Definition vec3_scale (c : R) (p : vec3) : vec3 :=
  mkvec3 (c * vx p) (c * vy p) (c * vz p).
Definition vec3_div (p : vec3) (c : R) : vec3 :=
  mkvec3 (vx p / c) (vy p / c) (vz p / c).

(** GLSL [log2]. *)
Definition log2 (x : R) : R := ln x / ln 2.

(** [vec3 scaleAndBias(vec3 p) { return 0.5 * p + vec3(0.5); }] *)
Definition scaleAndBias (p : vec3) : vec3 :=
  vec3_add (vec3_scale 0.5 p) (mkvec3 0.5 0.5 0.5).

(** The local variables of [coneTrace] that the loop updates;
    [occlusion] is the [out] parameter. *)
Record march := mkMarch {
  color : vec3; alpha : R; occlusion : R; dist : R
}.

Section ConeTrace.

(** [textureLod(voxelTexture, coord, mip)] for the bound volume. *)
Variable textureLod : vec3 → R → vec4.
(** Uniforms, the global [voxelWorldSize] set by [main], and the
    interpolated inputs. *)
Variables sceneScale voxelConeStepSize voxelWorldSize : R.
Variables position_world normal_world : vec3.
(** The arguments of [coneTrace]. *)
Variables (direction : vec3) (tanHalfAngle : R).

Definition startPos : vec3 :=
  vec3_add position_world (vec3_scale voxelWorldSize normal_world).

Definition maxDistance : R := 50 * voxelWorldSize.

(** [max(voxelWorldSize, 2.0 * tanHalfAngle * dist)] *)
Definition diameter (dist : R) : R :=
  Rmax voxelWorldSize (2 * tanHalfAngle * dist).

(** [log2(diameter / voxelWorldSize)] *)
Definition mip (dist : R) : R := log2 (diameter dist / voxelWorldSize).

(** The texture coordinate sampled at distance [dist]. *)
Definition sample_coord (dist : R) : vec3 :=
  let worldPosition := vec3_add startPos (vec3_scale dist direction) in
  scaleAndBias (vec3_div worldPosition sceneScale).

(** The body of the [while] loop up to and including the update of
    [dist]. *)
Definition step (st : march) : march :=
  let voxelColor := textureLod (sample_coord (dist st)) (mip (dist st)) in
  let a' := 1 - alpha st in
  let color1 := vec3_add (color st) (vec3_scale a' (rgb voxelColor)) in
  let alpha1 := alpha st + a' * a voxelColor in
  let color2 := vec3_add color1 (rgb voxelColor) in
  let occlusion1 := occlusion st + a' * a voxelColor in
  let dist1 := dist st + diameter (dist st) * voxelConeStepSize in
  {| color := color2; alpha := alpha1; occlusion := occlusion1;
     dist := dist1 |}.

(** [while (dist < maxDistance) { ...; if (alpha > 0.95) break; }] with
    fuel; next to the final state it returns the texture lookups made,
    in order: one per iteration. *)
Fixpoint while_loop (fuel : nat) (st : march)
  : option (march * list (vec3 * R)) :=
  match fuel with
  | O => None
  | S fuel' =>
      if Rlt_dec (dist st) maxDistance then
        let lookup := (sample_coord (dist st), mip (dist st)) in
        let st' := step st in
        if Rgt_dec (alpha st') 0.95 then Some (st', [lookup])
        else
          match while_loop fuel' st' with
          | Some (st'', lookups) => Some (st'', lookup :: lookups)
          | None => None
          end
      else Some (st, [])
  end.

Definition initial : march :=
  {| color := mkvec3 0 0 0; alpha := 0; occlusion := 0;
     dist := voxelWorldSize |}.

(** [coneTrace]: the returned [vec4], the [out] parameter and the
    lookups made. *)
Definition coneTrace (fuel : nat) : option (vec4 * R * list (vec3 * R)) :=
  match while_loop fuel initial with
  | Some (st, lookups) =>
      Some (mkvec4 (color st) (alpha st), occlusion st, lookups)
  | None => None
  end.

End ConeTrace.

(** ** The rest of the fragment shader *)

Module FragmentShader.

Record vec2 := mkvec2 { v2x : R; v2y : R }.

(** A [mat3], by columns, as [mat3(c0, c1, c2)] builds it. *)
Record mat3 := mkmat3 { col0 : vec3; col1 : vec3; col2 : vec3 }.

Definition vec3_sub (p q : vec3) : vec3 :=
  mkvec3 (vx p - vx q) (vy p - vy q) (vz p - vz q).
Definition vec3_opp (p : vec3) : vec3 := mkvec3 (- vx p) (- vy p) (- vz p).
(** [p * q] on vectors is component-wise. *)
Definition vec3_mul (p q : vec3) : vec3 :=
  mkvec3 (vx p * vx q) (vy p * vy q) (vz p * vz q).
Definition dot (p q : vec3) : R := vx p * vx q + vy p * vy q + vz p * vz q.
Definition length3 (p : vec3) : R := sqrt (dot p p).
Definition normalize (p : vec3) : vec3 := vec3_div p (length3 p).
(** [m * v]. *)
Definition mat3_mul (m : mat3) (v : vec3) : vec3 :=
  vec3_add (vec3_add (vec3_scale (vx v) (col0 m)) (vec3_scale (vy v) (col1 m)))
    (vec3_scale (vz v) (col2 m)).
Definition vec4_add (p q : vec4) : vec4 :=
  mkvec4 (vec3_add (rgb p) (rgb q)) (a p + a q).
Definition vec4_scale (c : R) (p : vec4) : vec4 :=
  mkvec4 (vec3_scale c (rgb p)) (c * a p).

Definition NUM_CONES : nat := 6.

Definition coneDirections : list vec3 :=
  [ mkvec3 0 1 0;
    mkvec3 0 0.5 0.866025;
    mkvec3 0.823639 0.5 0.267617;
    mkvec3 0.509037 0.5 (-0.700629);
    mkvec3 (-0.509037) 0.5 (-0.700629);
    mkvec3 (-0.823639) 0.5 0.267617 ].

Definition coneWeights : list R := [0.25; 0.15; 0.15; 0.15; 0.15; 0.15].

(** The uniform blocks, with the fields the fragment shader reads. *)
Record materialBuffer := mkMaterialBuffer {
  mambient : vec4;
  mdiffuse : vec4;
  mspecular : vec4;
  specularExponent : R;
  hasDiffuseMap : bool;
  hasNormalMap : bool;
  hasSpecularMap : bool;
  hasDissolveMap : bool
}.

Record guiDataBuffer := mkGuiDataBuffer {
  bumpIntensity : R;
  indirectMultiplier : R;
  directMultiplier : R;
  specularMultiplier : R;
  occlusionMultiplier : R;
  voxelConeStepSize : R;
  displayNormalMap : bool;
  displayOcclusion : bool
}.

(** The other uniforms: the samplers as lookup functions
    ([voxelTexture] as [textureLod] on the volume), [directional_world]
    of the scene buffer, and the loose ones. *)
Record uniforms := mkUniforms {
  textureMap : vec2 → vec4;
  bumpMap : vec2 → vec4;
  specularMap : vec2 → vec4;
  shadowMap : vec2 → vec4;
  voxelTexture : vec3 → R → vec4;
  directional_world : vec3;
  sceneScale : R;
  voxelResolution : R;
  camera_world : vec3
}.

(** The interpolated inputs. *)
Record varyings := mkVaryings {
  vUv : vec2;
  position_world : vec3;
  position_depth : vec4;
  normal_world : vec3;
  tangentToWorld : mat3
}.

Section Main.

Variables (material : materialBuffer) (gui : guiDataBuffer).
Variables (u : uniforms) (v : varyings).

(** [vec2(vUv.x, 1.0 - vUv.y)] *)
Definition flipped_uv : vec2 := mkvec2 (v2x (vUv v)) (1 - v2y (vUv v)).

Definition calculateBumpNormal : vec3 :=
  let bn :=
    vec3_sub (vec3_scale 2 (rgb (bumpMap u flipped_uv))) (mkvec3 1 1 1) in
  let bn_x := vx bn * bumpIntensity gui in
  let bn_y := vy bn * bumpIntensity gui in
  normalize (mat3_mul (tangentToWorld v) (mkvec3 bn_x 1 bn_y)).

(** [coneTrace] with the uniforms and inputs of this fragment;
    [voxelWorldSize] is the global that [main] assigns. *)
Definition trace (voxelWorldSize : R) (direction : vec3) (tanHalfAngle : R)
    (fuel : nat) : option (vec4 * R * list (vec3 * R)) :=
  coneTrace (voxelTexture u) (sceneScale u) (voxelConeStepSize gui)
    voxelWorldSize (position_world v) (normal_world v) direction tanHalfAngle
    fuel.

(** One iteration of the loop of [calculateIndirectLightning], on
    [(color, occlusion_out)]. *)
Definition indirect_body (voxelWorldSize : R) (fuel : nat)
    (acc : option (vec4 * R)) (i : nat) : option (vec4 * R) :=
  match acc with
  | None => None
  | Some (color, occlusion_out) =>
      match
        trace voxelWorldSize
          (mat3_mul (tangentToWorld v) (nth i coneDirections (mkvec3 0 0 0)))
          0.577 fuel
      with
      | None => None
      | Some (traced, occlusion, _) =>
          Some (vec4_add color (vec4_scale (nth i coneWeights 0) traced),
                occlusion_out + nth i coneWeights 0 * occlusion)
      end
  end.

(** [calculateIndirectLightning(out float occlusion_out)]. The function
    adds to its [out] parameter before assigning it. An [out] parameter
    is not copied in: the value it has on entry is undefined, and is the
    argument [occlusion_out] here, so that what is proved holds for
    every such value. *)
Definition calculateIndirectLightning (voxelWorldSize : R) (fuel : nat)
    (occlusion_out : R) : option (vec3 * R) :=
  match
    fold_left (indirect_body voxelWorldSize fuel) (seq 0 NUM_CONES)
      (Some (mkvec4 (mkvec3 0 0 0) 0, occlusion_out))
  with
  | None => None
  | Some (color, occlusion_out) =>
      Some (rgb color, Rmax (1 - occlusion_out) 0)
  end.

(** The shadow test of [main]. *)
Definition visibility : R :=
  if Rlt_dec
       (vx (rgb (shadowMap u
                   (mkvec2 (vx (rgb (position_depth v)))
                      (vy (rgb (position_depth v)))))))
       (vz (rgb (position_depth v)) - 0.0005)
  then 0 else 1.

(** [N], [L] and [E] of [main]. *)
Definition shading_normal : vec3 :=
  if hasNormalMap material then calculateBumpNormal
  else normalize (normal_world v).
Definition light_dir : vec3 := normalize (directional_world u).
Definition eye_dir : vec3 := normalize (camera_world u).

(** [max(0.0, dot(N, L))] *)
Definition cosTheta : R := Rmax 0 (dot shading_normal light_dir).

(** [normalize(-E - 2.0 * dot(-E, N) * N)] *)
Definition reflectDir : vec3 :=
  normalize
    (vec3_sub (vec3_opp eye_dir)
       (vec3_scale (2 * dot (vec3_opp eye_dir) shading_normal)
          shading_normal)).

(** [length(specularColor.gb) > 0.0 ? specularColor : specularColor.rrra] *)
Definition specularColor : vec4 :=
  let c := specularMap u flipped_uv in
  if Rgt_dec (sqrt (vy (rgb c) * vy (rgb c) + vz (rgb c) * vz (rgb c))) 0
  then c
  else mkvec4 (mkvec3 (vx (rgb c)) (vx (rgb c)) (vx (rgb c))) (a c).

(** [main]: the value of [outColor]. The value 0 that [main] gives to
    [occlusion] is not passed to [calculateIndirectLightning], whose
    parameter is [out]: [undefined] is the value the parameter has on
    entry. *)
Definition main (undefined : R) (fuel : nat) : option vec4 :=
  let voxelWorldSize := sceneScale u / voxelResolution u in
  let materialColor := textureMap u flipped_uv in
  let alpha := a materialColor in
  let directDiffuseLight :=
    vec3_scale (directMultiplier gui)
      (mkvec3 (visibility * cosTheta) (visibility * cosTheta)
         (visibility * cosTheta)) in
  match calculateIndirectLightning voxelWorldSize fuel undefined with
  | None => None
  | Some (indirect, occlusion) =>
      let indirectDiffuseLight :=
        vec3_scale (indirectMultiplier gui * 2) indirect in
      let occlusion := Rmin 1 (occlusionMultiplier gui * occlusion) in
      let diffuseReflection :=
        vec3_mul
          (vec3_mul (vec3_scale (2 * occlusion) (rgb (mdiffuse material)))
             (vec3_add directDiffuseLight indirectDiffuseLight))
          (rgb materialColor) in
      match trace voxelWorldSize reflectDir 0.07 fuel with
      | None => None
      | Some (tracedSpecular, specularOcclusion, _) =>
          let specularReflection :=
            vec3_mul
              (vec3_scale (2 * specularOcclusion * specularMultiplier gui)
                 (rgb specularColor))
              (rgb tracedSpecular) in
          Some
            (if displayNormalMap gui && hasNormalMap material
             then bumpMap u flipped_uv
             else if displayOcclusion gui
             then mkvec4 (mkvec3 occlusion occlusion occlusion) 1
             else mkvec4 (vec3_add diffuseReflection specularReflection)
                    alpha)
      end
  end.

End Main.

(** *** Test inputs *)

Definition demo_material : materialBuffer :=
  mkMaterialBuffer (mkvec4 (mkvec3 1 1 1) 1) (mkvec4 (mkvec3 1 1 1) 1)
    (mkvec4 (mkvec3 1 1 1) 1) 1 false false false false.

Definition demo_gui (stepSize : R) (normals occlusion_only : bool)
  : guiDataBuffer :=
  mkGuiDataBuffer 0 1 1 1 1 stepSize normals occlusion_only.

Definition demo_uniforms (volume : vec4) : uniforms :=
  mkUniforms (λ _, mkvec4 (mkvec3 1 1 1) 1) (λ _, mkvec4 (mkvec3 0.5 0.5 1) 1)
    (λ _, mkvec4 (mkvec3 1 1 1) 1) (λ _, mkvec4 (mkvec3 1 1 1) 1)
    (λ _ _, volume) (mkvec3 0 1 0) 64 64 (mkvec3 0 0 1).

Definition demo_varyings : varyings :=
  mkVaryings (mkvec2 0 0) (mkvec3 0 0 0) (mkvec4 (mkvec3 0 0 0) 1)
    (mkvec3 0 1 0)
    (mkmat3 (mkvec3 1 0 0) (mkvec3 0 1 0) (mkvec3 0 0 1)).

End FragmentShader.

(** ** [coneTrace] under rounding *)

Module Rounded.

(** The arithmetic of the shader's floats, on their values: what the
    four operators and [log2] return, and the float that the literal
    [0.95] denotes. The other literals of [coneTrace] (0.0, 1.0, 2.0,
    50.0 and 0.5) are floats themselves; comparisons and [max] are
    exact. Nothing is assumed of the operators: correctly rounded
    binary32 arithmetic is one instance. *)
Record arithmetic := mkArithmetic {
  fadd : R → R → R;
  fsub : R → R → R;
  fmul : R → R → R;
  fdiv : R → R → R;
  flog2 : R → R;
  lit_0_95 : R
}.

(** Arithmetic without rounding. *)
Definition exact : arithmetic :=
  mkArithmetic Rplus Rminus Rmult Rdiv log2 0.95.

(** Operators without rounding, and the literal [0.95] as binary32
    holds it, [15938355 * 2^-24]. *)
Definition exact_with_binary32_literal : arithmetic :=
  mkArithmetic Rplus Rminus Rmult Rdiv log2 (15938355 / 16777216).

Section ConeTrace.

Variable A : arithmetic.
Variable textureLod : vec3 → R → vec4.
Variables sceneScale voxelConeStepSize voxelWorldSize : R.
Variables position_world normal_world : vec3.
Variables (direction : vec3) (tanHalfAngle : R).

Definition vadd (p q : vec3) : vec3 :=
  mkvec3 (fadd A (vx p) (vx q)) (fadd A (vy p) (vy q)) (fadd A (vz p) (vz q)).
(** [c * p] *)
Definition vscale (c : R) (p : vec3) : vec3 :=
  mkvec3 (fmul A c (vx p)) (fmul A c (vy p)) (fmul A c (vz p)).
(** [p * c] *)
Definition vscale_r (p : vec3) (c : R) : vec3 :=
  mkvec3 (fmul A (vx p) c) (fmul A (vy p) c) (fmul A (vz p) c).
(** [p / c] *)
Definition vdiv (p : vec3) (c : R) : vec3 :=
  mkvec3 (fdiv A (vx p) c) (fdiv A (vy p) c) (fdiv A (vz p) c).

(** [0.5 * p + vec3(0.5)] *)
Definition scaleAndBias (p : vec3) : vec3 :=
  vadd (vscale 0.5 p) (mkvec3 0.5 0.5 0.5).

(** [position_world + normal_world * voxelWorldSize] *)
Definition startPos : vec3 :=
  vadd position_world (vscale_r normal_world voxelWorldSize).

(** [50.0 * voxelWorldSize] *)
Definition maxDistance : R := fmul A 50 voxelWorldSize.

(** [max(voxelWorldSize, 2.0 * tanHalfAngle * dist)] *)
Definition diameter (dist : R) : R :=
  Rmax voxelWorldSize (fmul A (fmul A 2 tanHalfAngle) dist).

(** [log2(diameter / voxelWorldSize)] *)
Definition mip (dist : R) : R :=
  flog2 A (fdiv A (diameter dist) voxelWorldSize).

(** [scaleAndBias((startPos + dist * direction) / sceneScale)] *)
Definition sample_coord (dist : R) : vec3 :=
  scaleAndBias (vdiv (vadd startPos (vscale dist direction)) sceneScale).

(** [dist + diameter * voxelConeStepSize] *)
Definition next_dist (dist : R) : R :=
  fadd A dist (fmul A (diameter dist) voxelConeStepSize).

(** The value of [dist] after [n] iterations. *)
Definition dist_after (n : nat) : R := Nat.iter n next_dist voxelWorldSize.

(** The body of the [while] loop up to and including the update of
    [dist]. *)
Definition step (st : march) : march :=
  let voxelColor := textureLod (sample_coord (dist st)) (mip (dist st)) in
  let a' := fsub A 1 (alpha st) in
  let color1 := vadd (color st) (vscale a' (rgb voxelColor)) in
  let alpha1 := fadd A (alpha st) (fmul A a' (a voxelColor)) in
  let color2 := vadd color1 (rgb voxelColor) in
  let occlusion1 := fadd A (occlusion st) (fmul A a' (a voxelColor)) in
  let dist1 := next_dist (dist st) in
  {| color := color2; alpha := alpha1; occlusion := occlusion1;
     dist := dist1 |}.

(** The loop, with fuel, and the texture lookups made. *)
Fixpoint while_loop (fuel : nat) (st : march)
  : option (march * list (vec3 * R)) :=
  match fuel with
  | O => None
  | S fuel' =>
      if Rlt_dec (dist st) maxDistance then
        let lookup := (sample_coord (dist st), mip (dist st)) in
        let st' := step st in
        if Rgt_dec (alpha st') (lit_0_95 A) then Some (st', [lookup])
        else
          match while_loop fuel' st' with
          | Some (st'', lookups) => Some (st'', lookup :: lookups)
          | None => None
          end
      else Some (st, [])
  end.

Definition coneTrace (fuel : nat) : option (vec4 * R * list (vec3 * R)) :=
  match while_loop fuel (initial voxelWorldSize) with
  | Some (st, lookups) =>
      Some (mkvec4 (color st) (alpha st), occlusion st, lookups)
  | None => None
  end.

End ConeTrace.

End Rounded.

Close Scope R_scope.

(** ** Two computations in binary32 *)

Module Binary32.

Definition prec : Z := 24.
Definition emax : Z := 128.

(** The float nearest to [m * 2^e]. *)
Definition of_Z (m e : Z) : SpecFloat.spec_float :=
  SpecFloat.binary_normalize prec emax m e false.

Definition add := SpecFloat.SFadd prec emax.
Definition mul := SpecFloat.SFmul prec emax.
Definition div := SpecFloat.SFdiv prec emax.

(** The float of a decimal literal [num / den]. *)
Definition literal (num den : Z) : SpecFloat.spec_float :=
  div (of_Z num 0) (of_Z den 0).

(** GLSL [max(x, y)]: [y] if [x < y], else [x]. *)
Definition max (x y : SpecFloat.spec_float) : SpecFloat.spec_float :=
  if SpecFloat.SFltb x y then y else x.

(** [max(voxelWorldSize, 2.0 * tanHalfAngle * dist)] *)
Definition diameter (voxelWorldSize tanHalfAngle dist : SpecFloat.spec_float)
  : SpecFloat.spec_float :=
  max voxelWorldSize (mul (mul (of_Z 2 0) tanHalfAngle) dist).

(** [dist + diameter * voxelConeStepSize] *)
Definition next_dist
    (voxelWorldSize tanHalfAngle voxelConeStepSize dist : SpecFloat.spec_float)
  : SpecFloat.spec_float :=
  add dist (mul (diameter voxelWorldSize tanHalfAngle dist) voxelConeStepSize).

(** The [dist] part of the loop of [coneTrace] for a run whose alpha
    never exceeds 0.95: the number of iterations made from [dist], with
    fuel. *)
Fixpoint iterations
    (voxelWorldSize tanHalfAngle voxelConeStepSize : SpecFloat.spec_float)
    (fuel : nat) (dist : SpecFloat.spec_float) : option nat :=
  match fuel with
  | O => None
  | S fuel' =>
      if SpecFloat.SFltb dist (mul (of_Z 50 0) voxelWorldSize) then
        match
          iterations voxelWorldSize tanHalfAngle voxelConeStepSize fuel'
            (next_dist voxelWorldSize tanHalfAngle voxelConeStepSize dist)
        with
        | Some n => Some (S n)
        | None => None
        end
      else Some O
  end.

End Binary32.

(** ** Test volumes *)

(** A uniform volume: every lookup returns the same texel. *)
Definition const_volume (c : vec4) : vec3 → R → vec4 := λ _ _, c.

Definition origin : vec3 := mkvec3 0 0 0.

(** An empty volume, a white half-opaque one and an opaque one. *)
Definition empty_texel : vec4 := mkvec4 (mkvec3 0 0 0) 0.
Definition half_texel : vec4 := mkvec4 (mkvec3 1 1 1) 0.5.
Definition opaque_texel : vec4 := mkvec4 (mkvec3 1 1 1) 1.

(** * Properties of the merge *)

Section ArrayFacts.

Implicit Types (d : Uint8Array) (p q v : Z).

Lemma u8_set_length d p v : length (u8_set d p v) = length d.
Proof. unfold u8_set. destruct (p <? 0); [done | apply length_insert]. Qed.

Lemma u8_get_set_eq d p v :
  0 ≤ p < Z.of_nat (length d) → u8_get (u8_set d p v) p = v mod 256.
Proof.
  intros Hp. unfold u8_get, u8_set.
  destruct (Z.ltb_spec p 0); [lia |].
  rewrite list_lookup_insert_eq by lia. done.
Qed.

Lemma u8_get_set_ne d p q v : p ≠ q → u8_get (u8_set d q v) p = u8_get d p.
Proof.
  intros Hne. unfold u8_get, u8_set.
  destruct (Z.ltb_spec p 0); [done |].
  destruct (Z.ltb_spec q 0); [done |].
  rewrite list_lookup_insert_ne by lia. done.
Qed.

Lemma u8_get_new n p : u8_get (u8_new n) p = 0.
Proof.
  unfold u8_get, u8_new. destruct (p <? 0); [done |].
  destruct (replicate _ _ !! _) as [y |] eqn:E; [| done].
  apply lookup_replicate in E as [-> _]. done.
Qed.

Lemma u8_new_length n : 0 ≤ n → Z.of_nat (length (u8_new n)) = n.
Proof. intros Hn. unfold u8_new. rewrite length_replicate. lia. Qed.

Lemma store_if_length c d w : length (store_if c d w) = length d.
Proof. unfold store_if. destruct (c w.2); [apply u8_set_length | done]. Qed.

Lemma foldl_store_length c ws : ∀ d,
  length (foldl (store_if c) d ws) = length d.
Proof.
  induction ws as [| w ws IH]; intros d; simpl; [done |].
  rewrite IH. apply store_if_length.
Qed.

(** A byte no store of the list addresses is unchanged. *)
Lemma foldl_store_get_other c ws : ∀ d p,
  (∀ w, (p, w) ∉ ws) →
  u8_get (foldl (store_if c) d ws) p = u8_get d p.
Proof.
  induction ws as [| [q w] ws IH]; intros d p Hno; simpl; [done |].
  rewrite IH.
  - unfold store_if; simpl. destruct (c w); [| done].
    apply u8_get_set_ne. intros ->. apply (Hno w). left.
  - intros w' Hin. apply (Hno w'). right. done.
Qed.

(** A byte addressed by the list, always with the same value [v], holds
    [v] afterwards if the guard lets [v] through, and else is unchanged. *)
Lemma foldl_store_get c ws : ∀ d p v,
  0 ≤ p < Z.of_nat (length d) →
  (p, v) ∈ ws → (∀ w, (p, w) ∈ ws → w = v) →
  u8_get (foldl (store_if c) d ws) p = if c v then v mod 256 else u8_get d p.
Proof.
  induction ws as [| [q w] ws IH]; intros d p v Hp Hin Hfun; simpl.
  { by apply not_elem_of_nil in Hin. }
  assert (Hhead : u8_get (store_if c d (q, w)) p
                  = if decide (q = p) then
                      (if c v then v mod 256 else u8_get d p)
                    else u8_get d p).
  { unfold store_if; simpl. destruct (decide (q = p)) as [-> | Hne].
    - rewrite (Hfun w) by left. destruct (c v); [| done].
      by apply u8_get_set_eq.
    - destruct (c w); [| done]. by apply u8_get_set_ne. }
  destruct (decide ((p, v) ∈ ws)) as [Hin' | Hnin].
  - rewrite (IH _ p v); [| by rewrite store_if_length | done |].
    + destruct (c v); [done |]. rewrite Hhead.
      destruct (decide (q = p)); done.
    + intros w' Hw'. apply Hfun. by right.
  - rewrite foldl_store_get_other.
    + rewrite Hhead. apply elem_of_cons in Hin as [Heq | ?]; [| done].
      injection Heq as -> ->. by rewrite decide_True.
    + intros w' Hw'. apply Hnin. rewrite <- (Hfun w'); [done | by right].
Qed.

End ArrayFacts.

Section LoopFacts.

Context {S : Type}.
Implicit Types (body : S → Z → S) (init : S).

Lemma for_loop_0 body init : for_loop 0 body init = init.
Proof. done. Qed.

Lemma for_loop_succ body init n :
  0 ≤ n → for_loop (n + 1) body init = body (for_loop n body init) n.
Proof.
  intros Hn. unfold for_loop.
  rewrite seqZ_app by lia. rewrite foldl_app. done.
Qed.

(** The invariant rule of a counted loop. *)
Lemma for_loop_invariant (P : Z → S → Prop) body init n :
  0 ≤ n → P 0 init →
  (∀ k st, 0 ≤ k < n → P k st → P (k + 1) (body st k)) →
  P n (for_loop n body init).
Proof.
  intros Hn H0 Hstep.
  rewrite <- (Z2Nat.id n) by done.
  assert (Hle : (Z.to_nat n ≤ Z.to_nat n)%nat) by lia.
  revert Hle. generalize (Z.to_nat n) at 1 3 4 as m.
  induction m as [| m IH]; intros Hle; [done |].
  rewrite Nat2Z.inj_succ, <- Z.add_1_r.
  rewrite for_loop_succ by lia. apply Hstep; [lia |]. apply IH. lia.
Qed.

Lemma foldl_bind {B C : Type} (f : S → C → S) (g : B → list C) l : ∀ a,
  foldl f a (l ≫= g) = foldl (λ a x, foldl f a (g x)) a l.
Proof.
  induction l as [| x l IH]; intros a; [done |].
  rewrite bind_cons, foldl_app. simpl. apply IH.
Qed.

Lemma foldl_ext_in {B : Type} (f g : S → B → S) l : ∀ a,
  (∀ a x, x ∈ l → f a x = g a x) → foldl f a l = foldl g a l.
Proof.
  induction l as [| x l IH]; intros a Hfg; [done |]. simpl.
  rewrite Hfg by left. apply IH. intros a' y Hy. apply Hfg. by right.
Qed.

End LoopFacts.

Section PassFacts.

Context (vSize : Z).

Lemma seqZ_snoc k : 0 ≤ k → seqZ 0 (k + 1) = seqZ 0 k ++ [k].
Proof.
  intros Hk. replace (k + 1) with (Z.of_nat (S (Z.to_nat k))) by lia.
  rewrite seqZ_S, Z2Nat.id by done. done.
Qed.

(** *** Each pass is the fold of its stores *)

Lemma bodyX_stores i slice d k rowCount :
  bodyX vSize i slice (d, k * 4, rowCount) k =
  (foldl (store_if (λ _, true)) d
     (stores4 (voxelX vSize i k (next_rowCount vSize rowCount k)) slice k),
   (k + 1) * 4, next_rowCount vSize rowCount k).
Proof.
  unfold bodyX, stores4, store_if. simpl.
  replace (k * 4 + 1 + 1) with (k * 4 + 2) by lia.
  replace (k * 4 + 2 + 1) with (k * 4 + 3) by lia.
  replace (k * 4 + 3 + 1) with ((k + 1) * 4) by lia.
  replace (k * 4 + 0) with (k * 4) by lia.
  done.
Qed.

Lemma sliceX_stores tex d i :
  sliceX vSize tex d i =
  foldl (store_if (λ _, true)) d
    (seqZ 0 (vSize * vSize) ≫= λ k,
       stores4 (writtenX vSize i k) (readPixels vSize tex i) k).
Proof.
  unfold sliceX. set (slice := readPixels vSize tex i).
  destruct (Z.le_gt_cases 0 (vSize * vSize)) as [Hn | Hn].
  2: { unfold for_loop. rewrite seqZ_nil by lia. done. }
  pose (P := λ (m : Z) (st : Uint8Array * Z * Z),
    st = (foldl (store_if (λ _, true)) d
            (seqZ 0 m ≫= λ k, stores4 (writtenX vSize i k) slice k),
          m * 4, for_loop m (next_rowCount vSize) 0)).
  assert (HP : P (vSize * vSize)
                 (for_loop (vSize * vSize) (bodyX vSize i slice) (d, 0, 0))).
  { apply for_loop_invariant; [done | done |].
    intros k st Hk ->. unfold P.
    rewrite bodyX_stores, seqZ_snoc, bind_app, foldl_app, bind_singleton by lia.
    unfold writtenX, rowCountX. rewrite for_loop_succ by lia. done. }
  rewrite HP. done.
Qed.

Lemma passX_stores tex d :
  passX vSize tex d = foldl (store_if (λ _, true)) d (storesX vSize tex).
Proof.
  unfold passX, storesX, for_loop. rewrite foldl_bind.
  apply foldl_ext_in. intros a i _. apply sliceX_stores.
Qed.

Lemma bodyY_stores i slice d k it rowCount :
  bodyY vSize i slice (d, k * 4, it, rowCount) k =
  let c := next_it_rowCount vSize it rowCount k in
  (foldl (store_if (λ v, 0 <? v)) d
     (stores4 (voxelY vSize i c.1 c.2) slice k),
   (k + 1) * 4, c.1 + 1, c.2).
Proof.
  unfold bodyY, stores4, store_if.
  destruct (next_it_rowCount vSize it rowCount k) as [it' rowCount'].
  simpl. replace (k * 4 + 4) with ((k + 1) * 4) by lia. done.
Qed.

Lemma countersY_step_eq c k :
  countersY_step vSize c k =
  ((next_it_rowCount vSize c.1 c.2 k).1 + 1,
   (next_it_rowCount vSize c.1 c.2 k).2).
Proof.
  unfold countersY_step. destruct (next_it_rowCount _ _ _ _). done.
Qed.

Lemma sliceY_stores tex d i :
  sliceY vSize tex d i =
  foldl (store_if (λ v, 0 <? v)) d
    (seqZ 0 (vSize * vSize) ≫= λ k,
       stores4 (writtenY vSize i k) (readPixels vSize tex i) k).
Proof.
  unfold sliceY. set (slice := readPixels vSize tex i).
  destruct (Z.le_gt_cases 0 (vSize * vSize)) as [Hn | Hn].
  2: { unfold for_loop. rewrite seqZ_nil by lia. done. }
  pose (P := λ (m : Z) (st : Uint8Array * Z * Z * Z),
    st = (foldl (store_if (λ v, 0 <? v)) d
            (seqZ 0 m ≫= λ k, stores4 (writtenY vSize i k) slice k),
          m * 4, (for_loop m (countersY_step vSize) (0, 0)).1,
          (for_loop m (countersY_step vSize) (0, 0)).2)).
  assert (HP : P (vSize * vSize)
                 (for_loop (vSize * vSize) (bodyY vSize i slice) (d, 0, 0, 0))).
  { apply for_loop_invariant; [done | done |].
    intros k st Hk ->. unfold P.
    rewrite bodyY_stores, seqZ_snoc, bind_app, foldl_app, bind_singleton by lia.
    rewrite (for_loop_succ (countersY_step vSize)) by lia.
    unfold writtenY, countersY. cbv zeta.
    rewrite countersY_step_eq. done. }
  rewrite HP. done.
Qed.

Lemma passY_stores tex d :
  passY vSize tex d = foldl (store_if (λ v, 0 <? v)) d (storesY vSize tex).
Proof.
  unfold passY, storesY, for_loop. rewrite foldl_bind.
  apply foldl_ext_in. intros a i _. apply sliceY_stores.
Qed.

Lemma passZ_stores tex d :
  passZ vSize tex d = foldl (store_if (λ v, 0 <? v)) d (storesZ vSize tex).
Proof.
  unfold passZ, storesZ, for_loop. rewrite foldl_bind.
  apply foldl_ext_in. intros a i _. unfold sliceZ, for_loop.
  rewrite foldl_bind. done.
Qed.

End PassFacts.

Section IndexFacts.

Context (vSize : Z) (Hsize : 0 < vSize).

Lemma div_pred m :
  0 < m →
  (m - 1) / vSize = (if m mod vSize =? 0 then m / vSize - 1 else m / vSize) ∧
  (m - 1) mod vSize = (if m mod vSize =? 0 then vSize - 1 else m mod vSize - 1).
Proof.
  intros Hm.
  pose proof (Z.div_mod m vSize ltac:(lia)) as E.
  pose proof (Z.mod_pos_bound m vSize Hsize) as B.
  destruct (Z.eqb_spec (m mod vSize) 0) as [H0 | H0].
  - split; symmetry.
    + apply Z.div_unique with (vSize - 1); lia.
    + apply Z.mod_unique with (m / vSize - 1); lia.
  - split; symmetry.
    + apply Z.div_unique with (m mod vSize - 1); lia.
    + apply Z.mod_unique with (m / vSize); lia.
Qed.

Lemma rowCountX_closed k : 0 ≤ k → rowCountX vSize k = k / vSize.
Proof.
  intros Hk. unfold rowCountX.
  pose (P := λ (m rc : Z), rc = (if m =? 0 then 0 else (m - 1) / vSize)).
  assert (HP : P (k + 1) (for_loop (k + 1) (next_rowCount vSize) 0)).
  { apply for_loop_invariant; [lia | done |].
    intros m rc Hm ->. unfold P, next_rowCount.
    destruct (Z.eqb_spec (m + 1) 0); [lia |].
    replace (m + 1 - 1) with m by lia.
    destruct (Z.eqb_spec m 0) as [-> | Hm0].
    - simpl. by rewrite Z.div_0_l by lia.
    - destruct (Z.ltb_spec 0 m); [| lia]. simpl.
      destruct (div_pred m ltac:(lia)) as [Hd _]. rewrite Hd.
      destruct (m mod vSize =? 0); lia. }
  red in HP. destruct (Z.eqb_spec (k + 1) 0); [lia |].
  by replace (k + 1 - 1) with k in HP by lia.
Qed.

Lemma countersY_closed k :
  0 ≤ k → countersY vSize k = (k mod vSize, k / vSize).
Proof.
  intros Hk. unfold countersY.
  pose (P := λ (m : Z) (c : Z * Z),
    c = if m =? 0 then (0, 0) else ((m - 1) mod vSize + 1, (m - 1) / vSize)).
  assert (HP : P k (for_loop k (countersY_step vSize) (0, 0))).
  { apply for_loop_invariant; [lia | done |].
    intros m c Hm ->. unfold P, countersY_step, next_it_rowCount.
    destruct (Z.eqb_spec (m + 1) 0); [lia |].
    replace (m + 1 - 1) with m by lia.
    destruct (Z.eqb_spec m 0) as [-> | Hm0].
    - simpl. rewrite Z.div_0_l, Z.mod_0_l by lia. done.
    - destruct (Z.ltb_spec 0 m); [| lia]. simpl.
      destruct (div_pred m ltac:(lia)) as [Hd Hr].
      destruct (Z.eqb_spec (m mod vSize) 0) as [H0 | H0]; simpl.
      + rewrite H0. f_equal. lia.
      + rewrite Hd, Hr. f_equal. lia. }
  red in HP. rewrite HP. cbv zeta. unfold next_it_rowCount.
  destruct (Z.eqb_spec k 0) as [-> | Hk0].
  - simpl. rewrite Z.div_0_l, Z.mod_0_l by lia. done.
  - destruct (Z.ltb_spec 0 k); [| lia]. simpl.
    destruct (div_pred k ltac:(lia)) as [Hd Hr].
    destruct (Z.eqb_spec (k mod vSize) 0) as [H0 | H0]; simpl.
    + rewrite H0, Hd. f_equal. lia.
    + rewrite Hd, Hr. f_equal. lia.
Qed.

Lemma writtenX_voxel i k :
  0 ≤ k →
  writtenX vSize i k = voxel_index vSize (vSize - 1 - i) (k / vSize) (k mod vSize).
Proof.
  intros Hk. unfold writtenX, voxelX, voxel_index.
  rewrite rowCountX_closed by done.
  pose proof (Z.div_mod k vSize ltac:(lia)) as E.
  set (r := k / vSize) in *. set (c := k mod vSize) in *.
  rewrite E. ring.
Qed.

Lemma writtenY_voxel i k :
  0 ≤ k →
  writtenY vSize i k = voxel_index vSize (vSize - 1 - k mod vSize) i (k / vSize).
Proof.
  intros Hk. unfold writtenY, voxelY, voxel_index.
  rewrite countersY_closed by done. simpl. ring.
Qed.

Lemma byteZ_voxel i j :
  byteZ vSize i j =
  voxel_index vSize ((j / 4) mod vSize) ((j / 4) / vSize) i * 4 + j mod 4.
Proof.
  unfold byteZ, voxel_index.
  pose proof (Z.div_mod j 4 ltac:(lia)) as E.
  pose proof (Z.div_mod (j / 4) vSize ltac:(lia)) as E'.
  lia.
Qed.

Lemma pixel_digits k :
  0 ≤ k < vSize * vSize →
  0 ≤ k / vSize < vSize ∧ 0 ≤ k mod vSize < vSize.
Proof.
  intros Hk. split; [| apply Z.mod_pos_bound; lia].
  split; [apply Z.div_pos; lia | apply Z.div_lt_upper_bound; lia].
Qed.

Lemma pixel_of_digits r c :
  0 ≤ c < vSize → (r * vSize + c) / vSize = r ∧ (r * vSize + c) mod vSize = c.
Proof.
  intros Hc. split; symmetry.
  - apply Z.div_unique with c; lia.
  - apply Z.mod_unique with r; lia.
Qed.

Lemma voxel_index_bound x y z :
  0 ≤ x < vSize → 0 ≤ y < vSize → 0 ≤ z < vSize →
  0 ≤ voxel_index vSize x y z < vSize * vSize * vSize.
Proof. intros Hx Hy Hz. unfold voxel_index. nia. Qed.

Lemma voxel_index_inj x y z x' y' z' :
  0 ≤ x < vSize → 0 ≤ y < vSize → 0 ≤ z < vSize →
  0 ≤ x' < vSize → 0 ≤ y' < vSize → 0 ≤ z' < vSize →
  voxel_index vSize x y z = voxel_index vSize x' y' z' →
  x = x' ∧ y = y' ∧ z = z'.
Proof.
  intros Hx Hy Hz Hx' Hy' Hz'. unfold voxel_index. intros E.
  assert (z = z') as -> by nia.
  assert (y = y') as -> by nia.
  lia.
Qed.

End IndexFacts.

Section MergeFacts.

Context (vSize : Z) (Hsize : 0 < vSize).

(** *** What [readPixels] returns *)

Lemma readPixels_byte tex i j : 0 ≤ u8_get (readPixels vSize tex i) j < 256.
Proof.
  unfold u8_get, readPixels. destruct (j <? 0); [lia |].
  rewrite list_lookup_fmap.
  destruct (seqZ _ _ !! _); simpl; [| lia].
  apply Z.mod_pos_bound. lia.
Qed.

Lemma texel_byte tex i k ch : 0 ≤ texel vSize tex i k ch < 256.
Proof. apply readPixels_byte. Qed.

Lemma readPixels_ext tex tex' i :
  (∀ j, 0 ≤ j < vSize * vSize * 4 → tex i j = tex' i j) →
  readPixels vSize tex i = readPixels vSize tex' i.
Proof.
  intros H. unfold readPixels. apply list_fmap_ext.
  intros n j Hj. apply lookup_seqZ in Hj as [-> Hn]. rewrite H by lia. done.
Qed.

(** *** The stores of each pass *)

Lemma elem_of_stores4 p w voxel slice k :
  (p, w) ∈ stores4 voxel slice k ↔
  ∃ ch, 0 ≤ ch < 4 ∧ p = voxel * 4 + ch ∧ w = u8_get slice (k * 4 + ch).
Proof.
  unfold stores4. rewrite !elem_of_cons, elem_of_nil. split.
  - intros [H | [H | [H | [H | []]]]]; injection H as -> ->;
      [exists 0 | exists 1 | exists 2 | exists 3]; lia.
  - intros (ch & Hch & -> & ->).
    assert (ch = 0 ∨ ch = 1 ∨ ch = 2 ∨ ch = 3) as [-> | [-> | [-> | ->]]]
      by lia; tauto.
Qed.

Lemma elem_of_storesX tex p w :
  (p, w) ∈ storesX vSize tex ↔
  ∃ i k ch, 0 ≤ i < vSize ∧ 0 ≤ k < vSize * vSize ∧ 0 ≤ ch < 4 ∧
    p = writtenX vSize i k * 4 + ch ∧ w = texel vSize tex i k ch.
Proof.
  unfold storesX. rewrite list_elem_of_bind. split.
  - intros (i & Hin & Hi). apply list_elem_of_bind in Hin as (k & Hin & Hk).
    apply elem_of_stores4 in Hin as (ch & Hch & -> & ->).
    apply elem_of_seqZ in Hi, Hk. exists i, k, ch. unfold texel. lia.
  - intros (i & k & ch & Hi & Hk & Hch & -> & ->). exists i. split.
    + apply list_elem_of_bind. exists k. split.
      * apply elem_of_stores4. exists ch. done.
      * apply elem_of_seqZ. lia.
    + apply elem_of_seqZ. lia.
Qed.

Lemma elem_of_storesY tex p w :
  (p, w) ∈ storesY vSize tex ↔
  ∃ i k ch, 0 ≤ i < vSize ∧ 0 ≤ k < vSize * vSize ∧ 0 ≤ ch < 4 ∧
    p = writtenY vSize i k * 4 + ch ∧ w = texel vSize tex i k ch.
Proof.
  unfold storesY. rewrite list_elem_of_bind. split.
  - intros (i & Hin & Hi). apply list_elem_of_bind in Hin as (k & Hin & Hk).
    apply elem_of_stores4 in Hin as (ch & Hch & -> & ->).
    apply elem_of_seqZ in Hi, Hk. exists i, k, ch. unfold texel. lia.
  - intros (i & k & ch & Hi & Hk & Hch & -> & ->). exists i. split.
    + apply list_elem_of_bind. exists k. split.
      * apply elem_of_stores4. exists ch. done.
      * apply elem_of_seqZ. lia.
    + apply elem_of_seqZ. lia.
Qed.

Lemma elem_of_storesZ tex p w :
  (p, w) ∈ storesZ vSize tex ↔
  ∃ i j, 0 ≤ i < vSize ∧ 0 ≤ j < vSize * vSize * 4 ∧
    p = byteZ vSize i j ∧ w = u8_get (readPixels vSize tex i) j.
Proof.
  unfold storesZ. rewrite list_elem_of_bind. split.
  - intros (i & Hin & Hi). apply list_elem_of_bind in Hin as (j & Hin & Hj).
    apply list_elem_of_singleton in Hin. injection Hin as -> ->.
    apply elem_of_seqZ in Hi, Hj. exists i, j. lia.
  - intros (i & j & Hi & Hj & -> & ->). exists i. split.
    + apply list_elem_of_bind. exists j. split.
      * apply list_elem_of_singleton. done.
      * apply elem_of_seqZ. lia.
    + apply elem_of_seqZ. lia.
Qed.

(** *** The remap of each axis, in voxel coordinates *)

Lemma writtenZ_voxel i k :
  0 ≤ k →
  writtenZ vSize i k = voxel_index vSize (k mod vSize) (k / vSize) i.
Proof.
  intros Hk. unfold writtenZ. rewrite byteZ_voxel by done.
  rewrite Z.div_mul, Z.mod_mul by lia.
  rewrite Z.add_0_r, Z.div_mul by lia. done.
Qed.

Lemma byteZ_channel i k ch :
  byteZ vSize i (k * 4 + ch) = byteZ vSize i (k * 4) + ch.
Proof. unfold byteZ. lia. Qed.

Lemma byteZ_writtenZ i k ch :
  byteZ vSize i (k * 4 + ch) = writtenZ vSize i k * 4 + ch.
Proof.
  rewrite byteZ_channel. unfold writtenZ, byteZ.
  replace (vSize * vSize * i * 4 + k * 4) with ((vSize * vSize * i + k) * 4)
    by lia.
  rewrite Z.div_mul by lia. done.
Qed.

(** The pixel of each capture that the remap sends to voxel [(x, y, z)]. *)
Lemma writtenX_source x y z :
  0 ≤ y → 0 ≤ z < vSize →
  writtenX vSize (vSize - 1 - x) (y * vSize + z) = voxel_index vSize x y z.
Proof.
  intros Hy Hz. rewrite writtenX_voxel by nia.
  destruct (pixel_of_digits vSize y z Hz) as [-> ->].
  f_equal. lia.
Qed.

Lemma writtenY_source x y z :
  0 ≤ z → 0 ≤ x < vSize →
  writtenY vSize y (z * vSize + (vSize - 1 - x)) = voxel_index vSize x y z.
Proof.
  intros Hz Hx. rewrite writtenY_voxel by nia.
  destruct (pixel_of_digits vSize z (vSize - 1 - x) ltac:(lia))
    as [-> ->].
  f_equal. lia.
Qed.

Lemma writtenZ_source x y z :
  0 ≤ y → 0 ≤ x < vSize →
  writtenZ vSize z (y * vSize + x) = voxel_index vSize x y z.
Proof.
  intros Hy Hx. rewrite writtenZ_voxel by nia.
  destruct (pixel_of_digits vSize y x Hx) as [-> ->]. done.
Qed.

Lemma writtenX_bound i k :
  0 ≤ i < vSize → 0 ≤ k < vSize * vSize →
  0 ≤ writtenX vSize i k < vSize * vSize * vSize.
Proof.
  intros Hi Hk. rewrite writtenX_voxel by lia.
  destruct (pixel_digits vSize Hsize k Hk).
  apply voxel_index_bound; lia.
Qed.

Lemma writtenY_bound i k :
  0 ≤ i < vSize → 0 ≤ k < vSize * vSize →
  0 ≤ writtenY vSize i k < vSize * vSize * vSize.
Proof.
  intros Hi Hk. rewrite writtenY_voxel by lia.
  destruct (pixel_digits vSize Hsize k Hk).
  apply voxel_index_bound; lia.
Qed.

Lemma writtenZ_bound i k :
  0 ≤ i < vSize → 0 ≤ k < vSize * vSize →
  0 ≤ writtenZ vSize i k < vSize * vSize * vSize.
Proof.
  intros Hi Hk. rewrite writtenZ_voxel by lia.
  destruct (pixel_digits vSize Hsize k Hk).
  apply voxel_index_bound; lia.
Qed.

Lemma pixel_eq k k' :
  k / vSize = k' / vSize → k mod vSize = k' mod vSize → k = k'.
Proof.
  intros Hd Hm.
  rewrite (Z.div_mod k vSize), (Z.div_mod k' vSize) by lia. congruence.
Qed.

Lemma writtenX_inj i k i' k' :
  0 ≤ i < vSize → 0 ≤ k < vSize * vSize →
  0 ≤ i' < vSize → 0 ≤ k' < vSize * vSize →
  writtenX vSize i k = writtenX vSize i' k' → i = i' ∧ k = k'.
Proof.
  intros Hi Hk Hi' Hk'. rewrite !writtenX_voxel by lia.
  destruct (pixel_digits vSize Hsize k Hk).
  destruct (pixel_digits vSize Hsize k' Hk').
  intros E. apply (voxel_index_inj vSize Hsize) in E as (? & ? & ?); try lia.
  split; [lia | by apply pixel_eq].
Qed.

Lemma writtenY_inj i k i' k' :
  0 ≤ i < vSize → 0 ≤ k < vSize * vSize →
  0 ≤ i' < vSize → 0 ≤ k' < vSize * vSize →
  writtenY vSize i k = writtenY vSize i' k' → i = i' ∧ k = k'.
Proof.
  intros Hi Hk Hi' Hk'. rewrite !writtenY_voxel by lia.
  destruct (pixel_digits vSize Hsize k Hk).
  destruct (pixel_digits vSize Hsize k' Hk').
  intros E. apply (voxel_index_inj vSize Hsize) in E as (? & ? & ?); try lia.
  split; [lia | apply pixel_eq; lia].
Qed.

Lemma writtenZ_inj i k i' k' :
  0 ≤ i < vSize → 0 ≤ k < vSize * vSize →
  0 ≤ i' < vSize → 0 ≤ k' < vSize * vSize →
  writtenZ vSize i k = writtenZ vSize i' k' → i = i' ∧ k = k'.
Proof.
  intros Hi Hk Hi' Hk'. rewrite !writtenZ_voxel by lia.
  destruct (pixel_digits vSize Hsize k Hk).
  destruct (pixel_digits vSize Hsize k' Hk').
  intros E. apply (voxel_index_inj vSize Hsize) in E as (? & ? & ?); try lia.
  split; [lia | by apply pixel_eq].
Qed.

(** *** The volume after each pass *)

Lemma passX_get tex d x y z ch :
  Z.of_nat (length d) = vSize * vSize * vSize * 4 →
  0 ≤ x < vSize → 0 ≤ y < vSize → 0 ≤ z < vSize → 0 ≤ ch < 4 →
  u8_get (passX vSize tex d) (voxel_index vSize x y z * 4 + ch) =
  texel vSize tex (vSize - 1 - x) (y * vSize + z) ch.
Proof.
  intros Hlen Hx Hy Hz Hch. rewrite passX_stores.
  pose proof (voxel_index_bound vSize Hsize x y z Hx Hy Hz) as Hb.
  rewrite (foldl_store_get _ _ _ _
             (texel vSize tex (vSize - 1 - x) (y * vSize + z) ch)).
  - apply Z.mod_small, texel_byte.
  - lia.
  - apply elem_of_storesX. exists (vSize - 1 - x), (y * vSize + z), ch.
    rewrite writtenX_source by lia. repeat split; try lia; nia.
  - intros w (i & k & ch' & Hi & Hk & Hch' & E & ->)%elem_of_storesX.
    assert (ch' = ch) as -> by lia.
    assert (E' : writtenX vSize i k
                 = writtenX vSize (vSize - 1 - x) (y * vSize + z)).
    { rewrite writtenX_source by lia. lia. }
    apply writtenX_inj in E' as [-> ->]; [done | nia ..].
Qed.

Lemma passY_get tex d x y z ch :
  Z.of_nat (length d) = vSize * vSize * vSize * 4 →
  0 ≤ x < vSize → 0 ≤ y < vSize → 0 ≤ z < vSize → 0 ≤ ch < 4 →
  u8_get (passY vSize tex d) (voxel_index vSize x y z * 4 + ch) =
  let later := texel vSize tex y (z * vSize + (vSize - 1 - x)) ch in
  if 0 <? later then later
  else u8_get d (voxel_index vSize x y z * 4 + ch).
Proof.
  intros Hlen Hx Hy Hz Hch. rewrite passY_stores.
  pose proof (voxel_index_bound vSize Hsize x y z Hx Hy Hz) as Hb.
  rewrite (foldl_store_get _ _ _ _
             (texel vSize tex y (z * vSize + (vSize - 1 - x)) ch)).
  - cbv zeta. destruct (0 <? _); [| done]. apply Z.mod_small, texel_byte.
  - lia.
  - apply elem_of_storesY. exists y, (z * vSize + (vSize - 1 - x)), ch.
    rewrite writtenY_source by lia. repeat split; try lia; nia.
  - intros w (i & k & ch' & Hi & Hk & Hch' & E & ->)%elem_of_storesY.
    assert (ch' = ch) as -> by lia.
    assert (E' : writtenY vSize i k
                 = writtenY vSize y (z * vSize + (vSize - 1 - x))).
    { rewrite writtenY_source by lia. lia. }
    apply writtenY_inj in E' as [-> ->]; [done | nia ..].
Qed.

Lemma passZ_get tex d x y z ch :
  Z.of_nat (length d) = vSize * vSize * vSize * 4 →
  0 ≤ x < vSize → 0 ≤ y < vSize → 0 ≤ z < vSize → 0 ≤ ch < 4 →
  u8_get (passZ vSize tex d) (voxel_index vSize x y z * 4 + ch) =
  let later := texel vSize tex z (y * vSize + x) ch in
  if 0 <? later then later
  else u8_get d (voxel_index vSize x y z * 4 + ch).
Proof.
  intros Hlen Hx Hy Hz Hch. rewrite passZ_stores.
  pose proof (voxel_index_bound vSize Hsize x y z Hx Hy Hz) as Hb.
  rewrite (foldl_store_get _ _ _ _ (texel vSize tex z (y * vSize + x) ch)).
  - cbv zeta. destruct (0 <? _); [| done]. apply Z.mod_small, texel_byte.
  - lia.
  - apply elem_of_storesZ. exists z, ((y * vSize + x) * 4 + ch).
    rewrite byteZ_writtenZ, writtenZ_source by lia.
    repeat split; try lia; nia.
  - intros w (i & j & Hi & Hj & E & ->)%elem_of_storesZ.
    unfold texel.
    assert (i = z ∧ j = (y * vSize + x) * 4 + ch) as [-> ->]; [| done].
    assert (Hr : 0 ≤ (y * vSize + x) * 4 + ch < vSize * vSize * 4) by nia.
    assert (Em : z * (vSize * vSize * 4) + ((y * vSize + x) * 4 + ch)
                 = i * (vSize * vSize * 4) + j).
    { unfold byteZ, voxel_index in E. lia. }
    revert Hr Hj Em. generalize (vSize * vSize * 4) as m. intros m Hr Hj Em.
    assert (i = z) as -> by nia. lia.
Qed.

Lemma pass_length_X tex d : length (passX vSize tex d) = length d.
Proof. rewrite passX_stores. apply foldl_store_length. Qed.

Lemma pass_length_Y tex d : length (passY vSize tex d) = length d.
Proof. rewrite passY_stores. apply foldl_store_length. Qed.

Lemma pass_length_Z tex d : length (passZ vSize tex d) = length d.
Proof. rewrite passZ_stores. apply foldl_store_length. Qed.

(** *** A pass reads its texture through [readPixels] only *)

Lemma passX_ext tex tex' d :
  (∀ i, 0 ≤ i < vSize → readPixels vSize tex i = readPixels vSize tex' i) →
  passX vSize tex d = passX vSize tex' d.
Proof.
  intros H. unfold passX, for_loop. apply foldl_ext_in.
  intros a i Hi%elem_of_seqZ. unfold sliceX. rewrite H by lia. done.
Qed.

Lemma passY_ext tex tex' d :
  (∀ i, 0 ≤ i < vSize → readPixels vSize tex i = readPixels vSize tex' i) →
  passY vSize tex d = passY vSize tex' d.
Proof.
  intros H. unfold passY, for_loop. apply foldl_ext_in.
  intros a i Hi%elem_of_seqZ. unfold sliceY. rewrite H by lia. done.
Qed.

Lemma passZ_ext tex tex' d :
  (∀ i, 0 ≤ i < vSize → readPixels vSize tex i = readPixels vSize tex' i) →
  passZ vSize tex d = passZ vSize tex' d.
Proof.
  intros H. unfold passZ, for_loop. apply foldl_ext_in.
  intros a i Hi%elem_of_seqZ. unfold sliceZ. rewrite H by lia. done.
Qed.

End MergeFacts.

(** * Properties of the cone tracer *)

Section ConeTraceFacts.

Open Scope R_scope.

Context (textureLod : vec3 → R → vec4).
Context (sceneScale voxelConeStepSize voxelWorldSize : R).
Context (position_world normal_world direction : vec3) (tanHalfAngle : R).

Local Abbreviation Step :=
  (step textureLod sceneScale voxelConeStepSize voxelWorldSize
     position_world normal_world direction tanHalfAngle).
Local Abbreviation Loop :=
  (while_loop textureLod sceneScale voxelConeStepSize voxelWorldSize
     position_world normal_world direction tanHalfAngle).
Local Abbreviation Trace :=
  (coneTrace textureLod sceneScale voxelConeStepSize voxelWorldSize
     position_world normal_world direction tanHalfAngle).
Local Abbreviation Coord :=
  (sample_coord sceneScale voxelWorldSize position_world normal_world
     direction).
Local Abbreviation Diameter := (diameter voxelWorldSize tanHalfAngle).
Local Abbreviation Mip := (mip voxelWorldSize tanHalfAngle).
Local Abbreviation MaxDistance := (maxDistance voxelWorldSize).
Local Abbreviation Initial := (initial voxelWorldSize).

(** *** Unfolding the loop *)

Lemma while_loop_exit fuel st :
  ¬ dist st < MaxDistance → Loop (S fuel) st = Some (st, []).
Proof. intros H. simpl. destruct (Rlt_dec _ _); [contradiction | reflexivity]. Qed.

Lemma while_loop_break fuel st :
  dist st < MaxDistance → alpha (Step st) > 0.95 →
  Loop (S fuel) st = Some (Step st, [(Coord (dist st), Mip (dist st))]).
Proof.
  intros Hd Ha. simpl. destruct (Rlt_dec _ _); [| contradiction].
  destruct (Rgt_dec _ _); [reflexivity | contradiction].
Qed.

Lemma while_loop_continue fuel st :
  dist st < MaxDistance → ¬ alpha (Step st) > 0.95 →
  Loop (S fuel) st =
    match Loop fuel (Step st) with
    | Some (st', lookups) =>
        Some (st', (Coord (dist st), Mip (dist st)) :: lookups)
    | None => None
    end.
Proof.
  intros Hd Ha. simpl. destruct (Rlt_dec _ _); [| contradiction].
  destruct (Rgt_dec _ _); [contradiction | reflexivity].
Qed.

(** *** One step *)

Lemma diameter_ge d : voxelWorldSize <= Diameter d.
Proof. apply Rmax_l. Qed.

Lemma step_dist st :
  dist (Step st) = dist st + Diameter (dist st) * voxelConeStepSize.
Proof. reflexivity. Qed.

Lemma step_advances st :
  0 < voxelConeStepSize →
  dist st + voxelWorldSize * voxelConeStepSize <= dist (Step st).
Proof.
  intros Hs. rewrite step_dist. pose proof (diameter_ge (dist st)). nra.
Qed.

Lemma step_alpha st :
  alpha (Step st) =
  alpha st
  + (1 - alpha st) * a (textureLod (Coord (dist st)) (Mip (dist st))).
Proof. reflexivity. Qed.

Lemma step_occlusion st :
  occlusion (Step st) =
  occlusion st
  + (1 - alpha st) * a (textureLod (Coord (dist st)) (Mip (dist st))).
Proof. reflexivity. Qed.

Lemma step_color st :
  color (Step st) =
  let voxelColor := textureLod (Coord (dist st)) (Mip (dist st)) in
  vec3_add
    (vec3_add (color st) (vec3_scale (1 - alpha st) (rgb voxelColor)))
    (rgb voxelColor).
Proof. reflexivity. Qed.

(** *** The loop as a whole *)

Lemma while_loop_occlusion fuel : ∀ st st' lookups,
  Loop fuel st = Some (st', lookups) →
  occlusion st = alpha st → occlusion st' = alpha st'.
Proof.
  induction fuel as [| fuel IH]; intros st st' lookups Hrun Heq; [discriminate |].
  simpl in Hrun. destruct (Rlt_dec _ _).
  - assert (Hs : occlusion (Step st) = alpha (Step st)).
    { rewrite step_occlusion, step_alpha, Heq. reflexivity. }
    destruct (Rgt_dec _ _).
    + inversion Hrun; subst. exact Hs.
    + destruct (Loop fuel (Step st)) as [[st2 l2] |] eqn:E; [| discriminate].
      inversion Hrun; subst. eapply IH; eauto.
  - inversion Hrun; subst. exact Heq.
Qed.

Lemma log2_nonneg x : 1 <= x → 0 <= log2 x.
Proof.
  intros Hx. unfold log2.
  assert (0 <= ln x).
  { destruct (Rle_lt_or_eq_dec _ _ Hx) as [Hlt | <-].
    - rewrite <- ln_1. left. apply ln_increasing; lra.
    - rewrite ln_1. lra. }
  pose proof ln_lt_2. apply Rmult_le_pos; [assumption |].
  left. apply Rinv_0_lt_compat. lra.
Qed.

Lemma log2_monotone x y : 0 < x → x <= y → log2 x <= log2 y.
Proof.
  intros Hx Hxy. unfold log2.
  assert (ln x <= ln y).
  { destruct (Rle_lt_or_eq_dec _ _ Hxy) as [Hlt | <-]; [| lra].
    left. apply ln_increasing; assumption. }
  pose proof ln_lt_2. apply Rmult_le_compat_r; [| assumption].
  left. apply Rinv_0_lt_compat. lra.
Qed.

End ConeTraceFacts.

(** * The claims on the cone tracer *)

Section ConeTraceClaims.

Open Scope R_scope.

Context (textureLod : vec3 → R → vec4).
Context (sceneScale voxelConeStepSize voxelWorldSize : R).
Context (position_world normal_world direction : vec3) (tanHalfAngle : R).

(** C6. For a fixed [tanHalfAngle >= 0] and [voxelWorldSize > 0] the mip
    level [log2(max(voxelWorldSize, 2 * tanHalfAngle * dist) /
    voxelWorldSize)] is non-decreasing in [dist]. *)
Theorem mip_monotone : ∀ d1 d2,
  0 <= tanHalfAngle → 0 < voxelWorldSize → 0 <= d1 → d1 <= d2 →
  mip voxelWorldSize tanHalfAngle d1 <= mip voxelWorldSize tanHalfAngle d2.
Proof.
  intros d1 d2 Ht Hv H1 H12. unfold mip.
  pose proof (diameter_ge voxelWorldSize tanHalfAngle d1) as Hd1.
  assert (Hle : diameter voxelWorldSize tanHalfAngle d1
                <= diameter voxelWorldSize tanHalfAngle d2).
  { unfold diameter. apply Rle_max_compat_l. nra. }
  apply log2_monotone.
  - apply Rdiv_lt_0_compat; lra.
  - apply Rmult_le_compat_r; [| assumption].
    left. apply Rinv_0_lt_compat. assumption.
Qed.

(** C7. For [voxelWorldSize > 0] the mip level computed in an iteration
    is never negative, because the diameter is at least
    [voxelWorldSize]; this holds for every [tanHalfAngle] and [dist], in
    particular for [tanHalfAngle >= 0] and [dist > 0]. *)
Theorem mip_nonnegative : ∀ d,
  0 < voxelWorldSize → 0 <= mip voxelWorldSize tanHalfAngle d.
Proof.
  intros d Hv. unfold mip. apply log2_nonneg.
  pose proof (diameter_ge voxelWorldSize tanHalfAngle d) as Hd.
  apply Rmult_le_reg_r with voxelWorldSize; [assumption |].
  unfold Rdiv. rewrite Rmult_assoc, Rinv_l by lra. lra.
Qed.

(** C9. When [coneTrace] returns, its [occlusion] out-parameter equals
    the alpha component of the returned [vec4]. *)
Theorem coneTrace_occlusion_is_alpha : ∀ fuel res occ lookups,
  coneTrace textureLod sceneScale voxelConeStepSize voxelWorldSize
      position_world normal_world direction tanHalfAngle fuel
  = Some (res, occ, lookups) →
  occ = a res.
Proof.
  intros fuel res occ lookups Hrun. unfold coneTrace in Hrun.
  destruct (while_loop _ _ _ _ _ _ _ _ fuel _) as [[st l] |] eqn:E;
    [| discriminate].
  inversion Hrun; subst. simpl.
  eapply while_loop_occlusion; eauto.
Qed.

End ConeTraceClaims.

(** ** Concrete runs *)

Section ConcreteRuns.

Open Scope R_scope.

(** A cone of zero aperture has the diameter of one voxel. *)
Lemma diameter_zero_angle v d : 0 <= v → diameter v 0 d = v.
Proof. intros Hv. unfold diameter. apply Rmax_left. lra. Qed.

(** C2, at the failing input: from the initial state of a trace with
    [voxelWorldSize = 1], a sample of colour [(1, 1, 1)] and alpha 0.5
    leaves the accumulated colour at [(2, 2, 2)], where front-to-back
    compositing alone gives [(1, 1, 1)]; the alpha is 0.5 as claimed. *)
Theorem step_adds_sample_color_twice :
  let st := step (const_volume half_texel) 1 1 1 origin origin origin 0
              (initial 1) in
  color st = mkvec3 2 2 2 ∧
  color st ≠ vec3_add (color (initial 1))
               (vec3_scale (1 - alpha (initial 1)) (rgb half_texel)) ∧
  alpha st = alpha (initial 1) + (1 - alpha (initial 1)) * a half_texel.
Proof.
  simpl. repeat split.
  - unfold vec3_add, vec3_scale. simpl. f_equal; lra.
  - unfold vec3_add, vec3_scale. simpl. intros H. inversion H. lra.
Qed.

(** One iteration, then the distance limit: step size 100. *)
Lemma run_large_step (c : vec4) :
  ¬ a c > 0.95 →
  coneTrace (const_volume c) 1 100 1 origin origin origin 0 2 =
  let st := step (const_volume c) 1 100 1 origin origin origin 0 (initial 1) in
  Some (mkvec4 (color st) (alpha st), occlusion st,
        [(sample_coord 1 1 origin origin origin 1, mip 1 0 1)]).
Proof.
  intros Hc. unfold coneTrace.
  rewrite while_loop_continue.
  - rewrite while_loop_exit; [reflexivity |].
    rewrite step_dist. simpl dist. rewrite diameter_zero_angle by lra.
    unfold maxDistance. lra.
  - unfold maxDistance. simpl. lra.
  - rewrite step_alpha. simpl. unfold const_volume. lra.
Qed.


End ConcreteRuns.

(** ** Witnesses *)

Lemma mip_monotone_witness : (mip 1 1 1 <= mip 1 1 2)%R.
Proof. apply (mip_monotone 1 1 1 2); lra. Defined.

Lemma mip_nonnegative_witness : (0 <= mip 1 1 1)%R.
Proof. apply (mip_nonnegative 1 1 1); lra. Defined.

Lemma coneTrace_occlusion_is_alpha_witness :
  let st := step (const_volume half_texel) 1 100 1 origin origin origin 0
              (initial 1) in
  occlusion st = a (mkvec4 (color st) (alpha st)).
Proof.
  apply (coneTrace_occlusion_is_alpha (const_volume half_texel) 1 100 1
           origin origin origin 0 2 _ _
           [(sample_coord 1 1 origin origin origin 1, mip 1 0 1)]).
  apply run_large_step. simpl. lra.
Defined.

(** * The claims on the voxelization *)

(** The merge on the test tracer. *)
Example merge_demo :
  voxelTexture (merge demo_tracer) =
  [54; 201; 118; 203; 100; 205; 52; 207; 70; 209; 126; 211; 108; 213; 68; 215;
   120; 217; 64; 219; 58; 221; 60; 223; 128; 225; 80; 227; 74; 229; 76; 231].
Proof. vm_compute. reflexivity. Qed.

(** C1. After the merge, each channel of the voxel [(x, y, z)] is the
    combination, in the order X, Y, Z, of the bytes of the three capture
    texels that the remap of each axis sends to [(x, y, z)], a later
    value overwriting the present one only if it is non-zero. *)
Theorem merge_combines_axes : ∀ this x y z ch,
  let vSize := Z.of_nat (voxelTextureSize this) in
  0 ≤ x < vSize → 0 ≤ y < vSize → 0 ≤ z < vSize → 0 ≤ ch < 4 →
  (writtenX vSize (vSize - 1 - x) (y * vSize + z) = voxel_index vSize x y z ∧
   writtenY vSize y (z * vSize + (vSize - 1 - x)) = voxel_index vSize x y z ∧
   writtenZ vSize z (y * vSize + x) = voxel_index vSize x y z) ∧
  u8_get (voxelTexture (merge this)) (voxel_index vSize x y z * 4 + ch) =
  spec_combine
    (texel vSize (xTexture this) (vSize - 1 - x) (y * vSize + z) ch)
    (texel vSize (yTexture this) y (z * vSize + (vSize - 1 - x)) ch)
    (texel vSize (zTexture this) z (y * vSize + x) ch).
Proof.
  intros this x y z ch vSize Hx Hy Hz Hch.
  assert (Hsize : 0 < vSize) by lia.
  split.
  { rewrite writtenX_source, writtenY_source, writtenZ_source by lia. done. }
  simpl. unfold merge_data. fold vSize.
  assert (Hlen : Z.of_nat (length (u8_new (vSize * vSize * vSize * 4)))
                 = vSize * vSize * vSize * 4)
    by (apply u8_new_length; nia).
  rewrite passZ_get, passY_get, passX_get;
    rewrite ?pass_length_Y, ?pass_length_X; try done.
  cbv zeta. unfold spec_combine, spec_overwrite.
  pose proof (texel_byte vSize (yTexture this) y
                (z * vSize + (vSize - 1 - x)) ch) as Hby.
  pose proof (texel_byte vSize (zTexture this) z (y * vSize + x) ch) as Hbz.
  repeat match goal with
         | |- context [0 <? ?v] => destruct (Z.ltb_spec 0 v)
         | |- context [?v =? 0] => destruct (Z.eqb_spec v 0)
         end; lia.
Qed.

(** C8. A second merge reproduces the first exactly, and the merged
    volume is determined by the resolution and the bytes of the three
    captures: neither the volume uploaded before nor anything else of
    the tracer enters. *)
Theorem merge_idempotent :
  (∀ this, merge (merge this) = merge this) ∧
  (∀ this this',
     same_captures this this' →
     voxelTexture (merge this) = voxelTexture (merge this')).
Proof.
  split; [reflexivity |].
  intros this this' [Hsize Hsame]. simpl. unfold merge_data.
  rewrite <- Hsize. cbv zeta in *.
  set (vSize := Z.of_nat (voxelTextureSize this)) in *.
  rewrite (passX_ext vSize (xTexture this) (xTexture this')).
  rewrite (passY_ext vSize (yTexture this) (yTexture this')).
  rewrite (passZ_ext vSize (zTexture this) (zTexture this')).
  - done.
  - intros i Hi. apply readPixels_ext. intros j Hj. by apply Hsame.
  - intros i Hi. apply readPixels_ext. intros j Hj. by apply Hsame.
  - intros i Hi. apply readPixels_ext. intros j Hj. by apply Hsame.
Qed.

(** C10. In each axis pass, for a slice [i] and a pixel [k] in range,
    the voxel index that the remap computes lies in the volume, the four
    bytes written lie inside [data], and distinct pairs [(i, k)] of one
    pass address distinct voxels. *)
Theorem merge_remap_in_bounds_injective : ∀ vSize i k,
  0 ≤ i < vSize → 0 ≤ k < vSize * vSize →
  (0 ≤ writtenX vSize i k < vSize * vSize * vSize ∧
   0 ≤ writtenY vSize i k < vSize * vSize * vSize ∧
   0 ≤ writtenZ vSize i k < vSize * vSize * vSize) ∧
  (∀ ch, 0 ≤ ch < 4 →
     let len := Z.of_nat (length (u8_new (vSize * vSize * vSize * 4))) in
     0 ≤ writtenX vSize i k * 4 + ch < len ∧
     0 ≤ writtenY vSize i k * 4 + ch < len ∧
     byteZ vSize i (k * 4 + ch) = writtenZ vSize i k * 4 + ch ∧
     0 ≤ byteZ vSize i (k * 4 + ch) < len) ∧
  (∀ i' k', 0 ≤ i' < vSize → 0 ≤ k' < vSize * vSize →
     (writtenX vSize i k = writtenX vSize i' k' → i = i' ∧ k = k') ∧
     (writtenY vSize i k = writtenY vSize i' k' → i = i' ∧ k = k') ∧
     (writtenZ vSize i k = writtenZ vSize i' k' → i = i' ∧ k = k')).
Proof.
  intros vSize i k Hi Hk.
  assert (Hsize : 0 < vSize) by lia.
  pose proof (writtenX_bound vSize Hsize i k Hi Hk) as HX.
  pose proof (writtenY_bound vSize Hsize i k Hi Hk) as HY.
  pose proof (writtenZ_bound vSize Hsize i k Hi Hk) as HZ.
  split; [done |]. split.
  - intros ch Hch len. subst len.
    rewrite u8_new_length by nia. rewrite byteZ_writtenZ by done.
    repeat split; lia.
  - intros i' k' Hi' Hk'. split; [| split]; intros E.
    + by apply (writtenX_inj vSize).
    + by apply (writtenY_inj vSize).
    + by apply (writtenZ_inj vSize).
Qed.

(** C3, at the failing input: a tracer constructed with
    [sceneScale = 1000] and resolution 64 builds, for slice 0, a frustum
    with bounds -3000 and 3000, not -1000 and 1000; the frustums are the
    same for every [sceneScale] given to the constructor. *)
Theorem voxelize_frustum_ignores_sceneScale :
  (∀ s s' cubeSize resolution i,
     orthoCamera (constructor s cubeSize resolution) i
     = orthoCamera (constructor s' cubeSize resolution) i) ∧
  let f := orthoCamera (constructor 1000%Q 1%Q 64) 0 in
  left f = (-3000)%Q ∧ right f = 3000%Q ∧
  bottom f = (-3000)%Q ∧ top f = 3000%Q ∧
  ¬ (left f == -1000)%Q ∧ ¬ (right f == 1000)%Q.
Proof.
  split; [reflexivity |]. simpl. repeat split; discriminate.
Qed.

(** ** Witnesses *)

Lemma merge_combines_axes_witness :
  (writtenX 2 (2 - 1 - 0) (1 * 2 + 0) = voxel_index 2 0 1 0 ∧
   writtenY 2 1 (0 * 2 + (2 - 1 - 0)) = voxel_index 2 0 1 0 ∧
   writtenZ 2 0 (1 * 2 + 0) = voxel_index 2 0 1 0) ∧
  u8_get (voxelTexture (merge demo_tracer)) (voxel_index 2 0 1 0 * 4 + 1) =
  spec_combine (texel 2 demo_x (2 - 1 - 0) (1 * 2 + 0) 1)
    (texel 2 demo_y 1 (0 * 2 + (2 - 1 - 0)) 1)
    (texel 2 demo_z 0 (1 * 2 + 0) 1).
Proof. apply (merge_combines_axes demo_tracer 0 1 0 1); simpl; lia. Defined.

Lemma merge_idempotent_witness :
  voxelTexture (merge demo_tracer) = voxelTexture (merge (merge demo_tracer)).
Proof.
  apply (proj2 merge_idempotent demo_tracer (merge demo_tracer)).
  split; [reflexivity |]. cbv zeta. intros i j _ _. repeat split.
Defined.

Lemma merge_remap_in_bounds_injective_witness :
  (0 ≤ writtenX 2 1 3 < 2 * 2 * 2 ∧
   0 ≤ writtenY 2 1 3 < 2 * 2 * 2 ∧
   0 ≤ writtenZ 2 1 3 < 2 * 2 * 2) ∧
  (∀ ch, 0 ≤ ch < 4 →
     let len := Z.of_nat (length (u8_new (2 * 2 * 2 * 4))) in
     0 ≤ writtenX 2 1 3 * 4 + ch < len ∧
     0 ≤ writtenY 2 1 3 * 4 + ch < len ∧
     byteZ 2 1 (3 * 4 + ch) = writtenZ 2 1 3 * 4 + ch ∧
     0 ≤ byteZ 2 1 (3 * 4 + ch) < len) ∧
  (∀ i' k', 0 ≤ i' < 2 → 0 ≤ k' < 2 * 2 →
     (writtenX 2 1 3 = writtenX 2 i' k' → 1 = i' ∧ 3 = k') ∧
     (writtenY 2 1 3 = writtenY 2 i' k' → 1 = i' ∧ 3 = k') ∧
     (writtenZ 2 1 3 = writtenZ 2 i' k' → 1 = i' ∧ 3 = k')).
Proof. apply (merge_remap_in_bounds_injective 2 1 3); lia. Defined.

(** * Further properties of [coneTrace] *)

Section ConeTraceMore.

Open Scope R_scope.

Context (textureLod : vec3 → R → vec4).
Context (sceneScale voxelConeStepSize voxelWorldSize : R).
Context (position_world normal_world direction : vec3) (tanHalfAngle : R).

Local Abbreviation Step :=
  (step textureLod sceneScale voxelConeStepSize voxelWorldSize
     position_world normal_world direction tanHalfAngle).
Local Abbreviation Loop :=
  (while_loop textureLod sceneScale voxelConeStepSize voxelWorldSize
     position_world normal_world direction tanHalfAngle).
Local Abbreviation Coord :=
  (sample_coord sceneScale voxelWorldSize position_world normal_world
     direction).
Local Abbreviation Mip := (mip voxelWorldSize tanHalfAngle).
Local Abbreviation MaxDistance := (maxDistance voxelWorldSize).

Lemma step_alpha_range st :
  (∀ p m, 0 <= a (textureLod p m) <= 1) →
  0 <= alpha st <= 1 → alpha st <= alpha (Step st) <= 1.
Proof.
  intros Hs Ha. rewrite step_alpha.
  specialize (Hs (Coord (dist st)) (Mip (dist st))). nra.
Qed.

Lemma while_loop_alpha_range fuel : ∀ st st' lookups,
  (∀ p m, 0 <= a (textureLod p m) <= 1) →
  Loop fuel st = Some (st', lookups) →
  0 <= alpha st <= 1 → alpha st <= alpha st' <= 1.
Proof.
  induction fuel as [| fuel IH]; intros st st' lookups Hs Hrun Ha;
    [discriminate |].
  pose proof (step_alpha_range st Hs Ha) as H1.
  simpl in Hrun. destruct (Rlt_dec _ _).
  - destruct (Rgt_dec _ _).
    + inversion Hrun; subst. exact H1.
    + destruct (Loop fuel (Step st)) as [[st2 l2] |] eqn:E; [| discriminate].
      inversion Hrun; subst.
      pose proof (IH _ _ _ Hs E ltac:(lra)). lra.
  - inversion Hrun; subst. lra.
Qed.

Lemma while_loop_lookups fuel : ∀ st st' lookups,
  0 < voxelWorldSize → 0 <= voxelConeStepSize →
  voxelWorldSize <= dist st →
  Loop fuel st = Some (st', lookups) →
  Forall (λ lk, ∃ d, voxelWorldSize <= d < 50 * voxelWorldSize
                     ∧ lk = (Coord d, Mip d)) lookups.
Proof.
  induction fuel as [| fuel IH]; intros st st' lookups Hv Hs Hd Hrun;
    [discriminate |].
  assert (Hd' : voxelWorldSize <= dist (Step st)).
  { rewrite step_dist.
    pose proof (diameter_ge voxelWorldSize tanHalfAngle (dist st)). nra. }
  simpl in Hrun. destruct (Rlt_dec _ _) as [Hlt | Hge].
  - assert (Hhere : ∃ d, voxelWorldSize <= d < 50 * voxelWorldSize
                         ∧ (Coord (dist st), Mip (dist st)) = (Coord d, Mip d)).
    { exists (dist st). unfold maxDistance in Hlt. auto. }
    destruct (Rgt_dec _ _).
    + inversion Hrun; subst. constructor; [exact Hhere | constructor].
    + destruct (Loop fuel (Step st)) as [[st2 l2] |] eqn:E; [| discriminate].
      inversion Hrun; subst. constructor; [exact Hhere |].
      eapply IH; eauto.
  - inversion Hrun; subst. constructor.
Qed.

Lemma step_empty st :
  (∀ p m, textureLod p m = empty_texel) →
  color st = mkvec3 0 0 0 → alpha st = 0 → occlusion st = 0 →
  color (Step st) = mkvec3 0 0 0 ∧ alpha (Step st) = 0
  ∧ occlusion (Step st) = 0.
Proof.
  intros He Hc Ha Ho.
  rewrite step_alpha, step_occlusion, step_color, He, Hc, Ha, Ho.
  unfold vec3_add, vec3_scale. simpl. repeat split; [f_equal |..]; lra.
Qed.

Lemma while_loop_empty fuel : ∀ st st' lookups,
  (∀ p m, textureLod p m = empty_texel) →
  Loop fuel st = Some (st', lookups) →
  color st = mkvec3 0 0 0 → alpha st = 0 → occlusion st = 0 →
  color st' = mkvec3 0 0 0 ∧ alpha st' = 0 ∧ occlusion st' = 0.
Proof.
  induction fuel as [| fuel IH]; intros st st' lookups He Hrun Hc Ha Ho;
    [discriminate |].
  destruct (step_empty st He Hc Ha Ho) as (Hc' & Ha' & Ho').
  simpl in Hrun. destruct (Rlt_dec _ _).
  - destruct (Rgt_dec _ _).
    + inversion Hrun; subst. auto.
    + destruct (Loop fuel (Step st)) as [[st2 l2] |] eqn:E; [| discriminate].
      inversion Hrun; subst. eapply IH; eauto.
  - inversion Hrun; subst. auto.
Qed.

(** X1. If every texel of the volume has an alpha in [0, 1], the alpha
    and the occlusion that [coneTrace] returns are in [0, 1]. *)
Theorem coneTrace_alpha_in_unit_interval : ∀ fuel res occ lookups,
  (∀ p m, 0 <= a (textureLod p m) <= 1) →
  coneTrace textureLod sceneScale voxelConeStepSize voxelWorldSize
    position_world normal_world direction tanHalfAngle fuel
  = Some (res, occ, lookups) →
  0 <= a res <= 1 ∧ 0 <= occ <= 1.
Proof.
  intros fuel res occ lookups Hs Hrun. unfold coneTrace in Hrun.
  destruct (while_loop _ _ _ _ _ _ _ _ fuel _) as [[st l] |] eqn:E;
    [| discriminate].
  inversion Hrun; subst. simpl.
  pose proof (while_loop_alpha_range _ _ _ _ Hs E) as Ha.
  pose proof (while_loop_occlusion _ _ _ _ _ _ _ _ _ _ _ _ E eq_refl) as Ho.
  simpl in Ha. rewrite Ho. lra.
Qed.

(** X2. With [voxelWorldSize > 0] and a step size [>= 0], every texture
    lookup of [coneTrace] is made at a distance [d] from the start with
    [voxelWorldSize <= d < 50 * voxelWorldSize], at the coordinate and
    the mip level of that distance. *)
Theorem coneTrace_samples_within_range : ∀ fuel res occ lookups,
  0 < voxelWorldSize → 0 <= voxelConeStepSize →
  coneTrace textureLod sceneScale voxelConeStepSize voxelWorldSize
    position_world normal_world direction tanHalfAngle fuel
  = Some (res, occ, lookups) →
  Forall (λ lk, ∃ d, voxelWorldSize <= d < 50 * voxelWorldSize ∧
                     lk = (sample_coord sceneScale voxelWorldSize
                             position_world normal_world direction d,
                           mip voxelWorldSize tanHalfAngle d)) lookups.
Proof.
  intros fuel res occ lookups Hv Hs Hrun. unfold coneTrace in Hrun.
  destruct (while_loop _ _ _ _ _ _ _ _ fuel _) as [[st l] |] eqn:E;
    [| discriminate].
  inversion Hrun; subst.
  eapply while_loop_lookups; eauto. simpl. lra.
Qed.

(** X3. In an empty volume every run of [coneTrace] that returns gives
    the zero colour, alpha 0 and occlusion 0. *)
Theorem coneTrace_empty_volume : ∀ fuel res occ lookups,
  (∀ p m, textureLod p m = empty_texel) →
  coneTrace textureLod sceneScale voxelConeStepSize voxelWorldSize
    position_world normal_world direction tanHalfAngle fuel
  = Some (res, occ, lookups) →
  res = mkvec4 (mkvec3 0 0 0) 0 ∧ occ = 0.
Proof.
  intros fuel res occ lookups He Hrun. unfold coneTrace in Hrun.
  destruct (while_loop _ _ _ _ _ _ _ _ fuel _) as [[st l] |] eqn:E;
    [| discriminate].
  inversion Hrun; subst.
  destruct (while_loop_empty _ _ _ _ He E eq_refl eq_refl eq_refl)
    as (-> & -> & ->). auto.
Qed.

(** With a step size of at least 49 the second test of the distance
    fails: the trace returns after one iteration. *)
Lemma coneTrace_one_step_returns fuel :
  0 < voxelWorldSize → 49 <= voxelConeStepSize →
  ∃ r, coneTrace textureLod sceneScale voxelConeStepSize voxelWorldSize
         position_world normal_world direction tanHalfAngle (S (S fuel))
       = Some r.
Proof.
  intros Hv Hs. unfold coneTrace.
  assert (Hd : dist (initial voxelWorldSize) < MaxDistance)
    by (unfold maxDistance; simpl; lra).
  destruct (Rgt_dec (alpha (Step (initial voxelWorldSize))) 0.95) as [Ha | Ha].
  - rewrite while_loop_break by assumption. eauto.
  - rewrite while_loop_continue by assumption.
    rewrite while_loop_exit; [eauto |].
    rewrite step_dist. simpl dist.
    pose proof (diameter_ge voxelWorldSize tanHalfAngle voxelWorldSize).
    unfold maxDistance. nra.
Qed.

(** X4. With [voxelWorldSize <= 0] the loop is not entered: [coneTrace]
    returns the zero colour, alpha 0 and occlusion 0 at once, without a
    texture lookup. *)
Theorem coneTrace_degenerate_voxel_size : ∀ fuel,
  voxelWorldSize <= 0 →
  coneTrace textureLod sceneScale voxelConeStepSize voxelWorldSize
    position_world normal_world direction tanHalfAngle (S fuel)
  = Some (mkvec4 (mkvec3 0 0 0) 0, 0, []).
Proof.
  intros fuel Hv. unfold coneTrace.
  rewrite while_loop_exit; [reflexivity |].
  unfold maxDistance. simpl. lra.
Qed.

(** X5. With a step size of 0, [voxelWorldSize > 0] and a volume that is
    transparent where the trace starts, [coneTrace] never returns: the
    distance stays at [voxelWorldSize] and alpha at 0. *)
Theorem coneTrace_zero_step_never_returns : ∀ fuel,
  0 < voxelWorldSize → voxelConeStepSize = 0 →
  a (textureLod
       (sample_coord sceneScale voxelWorldSize position_world normal_world
          direction voxelWorldSize)
       (mip voxelWorldSize tanHalfAngle voxelWorldSize)) = 0 →
  coneTrace textureLod sceneScale voxelConeStepSize voxelWorldSize
    position_world normal_world direction tanHalfAngle fuel = None.
Proof.
  intros fuel Hv Hs Ha. unfold coneTrace.
  assert (Hloop : ∀ st, dist st = voxelWorldSize → alpha st = 0 →
                        Loop fuel st = None).
  { induction fuel as [| fuel IH]; intros st Hd Hal; [reflexivity |].
    assert (Hd' : dist (Step st) = voxelWorldSize)
      by (rewrite step_dist, Hs, Hd; lra).
    assert (Hal' : alpha (Step st) = 0)
      by (rewrite step_alpha, Hd, Ha, Hal; lra).
    rewrite while_loop_continue.
    - rewrite IH by assumption. reflexivity.
    - unfold maxDistance. lra.
    - lra. }
  rewrite Hloop; reflexivity.
Qed.

End ConeTraceMore.

(** ** Witnesses *)

Lemma coneTrace_alpha_in_unit_interval_witness :
  let st := step (const_volume half_texel) 1 100 1 origin origin origin 0
              (initial 1) in
  (0 <= a (mkvec4 (color st) (alpha st)) <= 1 ∧ 0 <= occlusion st <= 1)%R.
Proof.
  apply (coneTrace_alpha_in_unit_interval (const_volume half_texel) 1 100 1
           origin origin origin 0 2 _ _
           [(sample_coord 1 1 origin origin origin 1, mip 1 0 1)]).
  - intros p m. simpl. lra.
  - apply run_large_step. simpl. lra.
Defined.

Lemma coneTrace_samples_within_range_witness :
  Forall (λ lk, ∃ d, (1 <= d < 50 * 1)%R ∧
                     lk = (sample_coord 1 1 origin origin origin d,
                           mip 1 0 d))
    [(sample_coord 1 1 origin origin origin 1, mip 1 0 1)].
Proof.
  apply (coneTrace_samples_within_range (const_volume half_texel) 1 100 1
           origin origin origin 0 2
           (let st := step (const_volume half_texel) 1 100 1 origin origin
                        origin 0 (initial 1) in
            mkvec4 (color st) (alpha st))
           (occlusion (step (const_volume half_texel) 1 100 1 origin origin
                         origin 0 (initial 1)))).
  - lra.
  - lra.
  - apply run_large_step. simpl. lra.
Defined.

Lemma coneTrace_empty_volume_witness :
  let st := step (const_volume empty_texel) 1 100 1 origin origin origin 0
              (initial 1) in
  mkvec4 (color st) (alpha st) = mkvec4 (mkvec3 0 0 0) 0
  ∧ occlusion st = 0%R.
Proof.
  apply (coneTrace_empty_volume (const_volume empty_texel) 1 100 1 origin
           origin origin 0 2 _ _
           [(sample_coord 1 1 origin origin origin 1, mip 1 0 1)]).
  - intros p m. reflexivity.
  - apply run_large_step. simpl. lra.
Defined.

Lemma coneTrace_degenerate_voxel_size_witness :
  coneTrace (const_volume opaque_texel) 1 1 0 origin origin origin 0 1
  = Some (mkvec4 (mkvec3 0 0 0) 0, 0%R, []).
Proof.
  apply (coneTrace_degenerate_voxel_size (const_volume opaque_texel) 1 1 0
           origin origin origin 0 0).
  lra.
Defined.

Lemma coneTrace_zero_step_never_returns_witness :
  coneTrace (const_volume empty_texel) 1 0 1 origin origin origin 0 1000
  = None.
Proof.
  apply (coneTrace_zero_step_never_returns (const_volume empty_texel) 1 0 1
           origin origin origin 0 1000).
  - lra.
  - reflexivity.
  - reflexivity.
Defined.

(** * Properties of the rest of the fragment shader *)

Section FragmentShaderFacts.

Import FragmentShader.

Open Scope R_scope.

Context (material : materialBuffer) (gui : guiDataBuffer).
Context (u : uniforms) (v : varyings).

Local Opaque coneWeights coneDirections.

Lemma indirect_fold_None w fuel cones :
  fold_left (indirect_body gui u v w fuel) cones None = None.
Proof. induction cones as [| i cones IH]; [reflexivity | exact IH]. Qed.

(** If the trace of every cone of the list returns, so does the
    loop. *)
Lemma indirect_fold_returns w fuel cones : ∀ acc,
  (∀ i, In i cones →
     ∃ r, trace gui u v w
            (mat3_mul (tangentToWorld v)
               (nth i coneDirections (mkvec3 0 0 0)))
            0.577 fuel = Some r) →
  ∃ r, fold_left (indirect_body gui u v w fuel) cones (Some acc) = Some r.
Proof.
  induction cones as [| i cones IH]; intros [color occ0] Hret.
  - eexists. reflexivity.
  - simpl. destruct (Hret i (or_introl eq_refl)) as [[[traced occ] l] E].
    rewrite E. apply IH. intros j Hj. apply Hret. right. exact Hj.
Qed.

(** X11. With [bumpIntensity = 0] the bump normal is the normalized
    second column of [tangentToWorld], whatever the bump map holds. *)
Theorem calculateBumpNormal_zero_intensity :
  bumpIntensity gui = 0 →
  calculateBumpNormal gui u v = normalize (col1 (tangentToWorld v)).
Proof.
  intros H0. unfold calculateBumpNormal. rewrite H0. f_equal.
  destruct (tangentToWorld v) as [[x0 y0 z0] [x1 y1 z1] [x2 y2 z2]].
  unfold mat3_mul, vec3_add, vec3_scale. simpl. f_equal; lra.
Qed.

End FragmentShaderFacts.

Section FragmentShaderMain.

Import FragmentShader.

Open Scope R_scope.

Context (material : materialBuffer) (gui : guiDataBuffer).
Context (u : uniforms) (v : varyings) (undefined : R).

Local Opaque coneWeights coneDirections.

(** With a step size of 0 the loop cannot leave a transparent start. *)
Lemma while_loop_zero_step textureLod scale w pos nrm dir t fuel : ∀ st,
  0 < w →
  a (textureLod (sample_coord scale w pos nrm dir w) (mip w t w)) = 0 →
  dist st = w → alpha st = 0 →
  while_loop textureLod scale 0 w pos nrm dir t fuel st = None.
Proof.
  induction fuel as [| fuel IH]; intros st Hw Ha Hd Hal; [reflexivity |].
  assert (Hd' : dist (step textureLod scale 0 w pos nrm dir t st) = w)
    by (rewrite step_dist, Hd; lra).
  assert (Hal' : alpha (step textureLod scale 0 w pos nrm dir t st) = 0)
    by (rewrite step_alpha, Hd, Ha, Hal; lra).
  rewrite while_loop_continue.
  - rewrite IH by assumption. reflexivity.
  - unfold maxDistance. lra.
  - lra.
Qed.

(** X15. With a step size of 0, a voxel size
    [sceneScale / voxelResolution > 0] and an empty volume, [main]
    never returns: its first cone trace does not. *)
Theorem main_zero_step_never_returns : ∀ fuel,
  voxelConeStepSize gui = 0 →
  0 < sceneScale u / voxelResolution u →
  (∀ p m, voxelTexture u p m = empty_texel) →
  main material gui u v undefined fuel = None.
Proof.
  intros fuel Hs Hw He. unfold main, calculateIndirectLightning.
  change (seq 0 NUM_CONES) with (0%nat :: seq 1 5).
  cbn [fold_left]. unfold indirect_body at 2. unfold trace, coneTrace.
  rewrite Hs, while_loop_zero_step.
  - rewrite indirect_fold_None. reflexivity.
  - assumption.
  - rewrite He. reflexivity.
  - reflexivity.
  - reflexivity.
Qed.

(** X12. In the occlusion display mode (and not the normal-map display
    mode), with [occlusionMultiplier >= 0]: if the six cone traces of
    [calculateIndirectLightning] and the specular trace return, [main]
    returns and writes an opaque grey [(o, o, o, 1)] with [o] in
    [0, 1], whatever the volume holds and whatever value the [out]
    parameter of [calculateIndirectLightning] has on entry. *)
Theorem main_displays_occlusion : ∀ fuel,
  displayOcclusion gui = true →
  displayNormalMap gui && hasNormalMap material = false →
  0 <= occlusionMultiplier gui →
  (∀ i, (i < NUM_CONES)%nat →
     ∃ r, trace gui u v (sceneScale u / voxelResolution u)
            (mat3_mul (tangentToWorld v)
               (nth i coneDirections (mkvec3 0 0 0)))
            0.577 fuel = Some r) →
  (∃ r, trace gui u v (sceneScale u / voxelResolution u)
          (reflectDir material gui u v) 0.07 fuel = Some r) →
  ∃ o, 0 <= o <= 1 ∧
       main material gui u v undefined fuel
       = Some (mkvec4 (mkvec3 o o o) 1).
Proof.
  intros fuel Hocc Hnm Hmul Hcones [[[traced socc] l] Hspec].
  destruct (indirect_fold_returns gui u v (sceneScale u / voxelResolution u)
              fuel (seq 0 NUM_CONES) (mkvec4 (mkvec3 0 0 0) 0, undefined))
    as [[color occ] Hfold].
  { intros i Hi. apply Hcones. apply in_seq in Hi. lia. }
  unfold main, calculateIndirectLightning.
  rewrite Hfold, Hspec, Hnm, Hocc.
  eexists. split; [| reflexivity].
  pose proof (Rmax_r (1 - occ) 0) as Ho.
  split.
  - apply Rmin_glb; nra.
  - apply Rmin_l.
Qed.

End FragmentShaderMain.

(** ** Witnesses *)

Lemma calculateBumpNormal_zero_intensity_witness :
  FragmentShader.calculateBumpNormal (FragmentShader.demo_gui 100 false false)
    (FragmentShader.demo_uniforms empty_texel) FragmentShader.demo_varyings
  = FragmentShader.normalize (mkvec3 0 1 0).
Proof.
  apply (calculateBumpNormal_zero_intensity
           (FragmentShader.demo_gui 100 false false)
           (FragmentShader.demo_uniforms empty_texel)
           FragmentShader.demo_varyings).
  reflexivity.
Defined.

Lemma main_zero_step_never_returns_witness :
  FragmentShader.main FragmentShader.demo_material
    (FragmentShader.demo_gui 0 false false)
    (FragmentShader.demo_uniforms empty_texel) FragmentShader.demo_varyings
    0 1000 = None.
Proof.
  apply (main_zero_step_never_returns FragmentShader.demo_material
           (FragmentShader.demo_gui 0 false false)
           (FragmentShader.demo_uniforms empty_texel)
           FragmentShader.demo_varyings 0 1000).
  - reflexivity.
  - simpl. lra.
  - intros p m. reflexivity.
Defined.

Lemma main_displays_occlusion_witness :
  ∃ o, (0 <= o <= 1)%R ∧
       FragmentShader.main FragmentShader.demo_material
         (FragmentShader.demo_gui 100 false true)
         (FragmentShader.demo_uniforms half_texel)
         FragmentShader.demo_varyings 7 2
       = Some (mkvec4 (mkvec3 o o o) 1).
Proof.
  apply (main_displays_occlusion FragmentShader.demo_material
           (FragmentShader.demo_gui 100 false true)
           (FragmentShader.demo_uniforms half_texel)
           FragmentShader.demo_varyings 7 2).
  - reflexivity.
  - reflexivity.
  - simpl. lra.
  - intros i _. apply coneTrace_one_step_returns; simpl; lra.
  - apply coneTrace_one_step_returns; simpl; lra.
Defined.

(** * Further properties of the voxelization *)

Section MergeMore.

Lemma u8_ext (d1 d2 : Uint8Array) :
  length d1 = length d2 →
  (∀ p, 0 ≤ p < Z.of_nat (length d1) → u8_get d1 p = u8_get d2 p) →
  d1 = d2.
Proof.
  intros Hlen Hget. apply list_eq. intros n.
  destruct (decide (n < length d1)%nat) as [Hn | Hn].
  - specialize (Hget (Z.of_nat n) ltac:(lia)). unfold u8_get in Hget.
    destruct (Z.ltb_spec (Z.of_nat n) 0); [lia |].
    rewrite Nat2Z.id in Hget.
    destruct (lookup_lt_is_Some_2 d1 n Hn) as [x1 E1].
    destruct (lookup_lt_is_Some_2 d2 n ltac:(lia)) as [x2 E2].
    rewrite E1, E2 in *. simpl in Hget. congruence.
  - rewrite !lookup_ge_None_2 by lia. done.
Qed.

Context (vSize : Z) (Hsize : 0 < vSize).

(** Every byte of the volume is a channel of a voxel. *)
Lemma byte_decompose p :
  0 ≤ p < vSize * vSize * vSize * 4 →
  ∃ x y z ch, 0 ≤ x < vSize ∧ 0 ≤ y < vSize ∧ 0 ≤ z < vSize ∧ 0 ≤ ch < 4 ∧
    p = voxel_index vSize x y z * 4 + ch.
Proof.
  intros Hp.
  exists ((p / 4) mod vSize), ((p / 4) / vSize mod vSize),
    ((p / 4) / vSize / vSize), (p mod 4).
  pose proof (Z.div_mod p 4 ltac:(lia)) as E1.
  pose proof (Z.mod_pos_bound p 4 ltac:(lia)) as B1.
  pose proof (Z.div_mod (p / 4) vSize ltac:(lia)) as E2.
  pose proof (Z.mod_pos_bound (p / 4) vSize Hsize) as B2.
  pose proof (Z.div_mod (p / 4 / vSize) vSize ltac:(lia)) as E3.
  pose proof (Z.mod_pos_bound (p / 4 / vSize) vSize Hsize) as B3.
  assert (Hv : 0 ≤ p / 4 < vSize * vSize * vSize)
    by (split; [apply Z.div_pos; lia | apply Z.div_lt_upper_bound; lia]).
  assert (Hv2 : 0 ≤ p / 4 / vSize < vSize * vSize)
    by (split; [apply Z.div_pos; lia | apply Z.div_lt_upper_bound; lia]).
  assert (Hv3 : 0 ≤ p / 4 / vSize / vSize < vSize)
    by (split; [apply Z.div_pos; lia | apply Z.div_lt_upper_bound; lia]).
  unfold voxel_index. repeat split; lia.
Qed.

Lemma texel_value tex i k ch :
  0 ≤ k * 4 + ch < vSize * vSize * 4 →
  texel vSize tex i k ch = tex i (k * 4 + ch) mod 256.
Proof.
  intros Hj. unfold texel, u8_get, readPixels.
  destruct (Z.ltb_spec (k * 4 + ch) 0); [lia |].
  rewrite list_lookup_fmap, lookup_seqZ_lt by lia. simpl.
  f_equal. f_equal. lia.
Qed.

(** The merged byte of a voxel channel, from the three source texels. *)
Lemma merge_data_get this x y z ch :
  vSize = Z.of_nat (voxelTextureSize this) →
  0 ≤ x < vSize → 0 ≤ y < vSize → 0 ≤ z < vSize → 0 ≤ ch < 4 →
  u8_get (merge_data this) (voxel_index vSize x y z * 4 + ch) =
  spec_combine
    (texel vSize (xTexture this) (vSize - 1 - x) (y * vSize + z) ch)
    (texel vSize (yTexture this) y (z * vSize + (vSize - 1 - x)) ch)
    (texel vSize (zTexture this) z (y * vSize + x) ch).
Proof.
  intros Hv Hx Hy Hz Hch. unfold merge_data. rewrite <- Hv.
  assert (Hlen : Z.of_nat (length (u8_new (vSize * vSize * vSize * 4)))
                 = vSize * vSize * vSize * 4)
    by (apply u8_new_length; nia).
  rewrite passZ_get, passY_get, passX_get;
    rewrite ?pass_length_Y, ?pass_length_X; try done.
  cbv zeta. unfold spec_combine, spec_overwrite.
  pose proof (texel_byte vSize (yTexture this) y
                (z * vSize + (vSize - 1 - x)) ch) as Hby.
  pose proof (texel_byte vSize (zTexture this) z (y * vSize + x) ch) as Hbz.
  repeat match goal with
         | |- context [0 <? ?v] => destruct (Z.ltb_spec 0 v)
         | |- context [?v =? 0] => destruct (Z.eqb_spec v 0)
         end; lia.
Qed.

End MergeMore.

Lemma merge_data_length this :
  Z.of_nat (length (merge_data this)) =
  Z.of_nat (voxelTextureSize this) * Z.of_nat (voxelTextureSize this)
  * Z.of_nat (voxelTextureSize this) * 4.
Proof.
  unfold merge_data.
  rewrite pass_length_Z, pass_length_Y, pass_length_X.
  apply u8_new_length. nia.
Qed.

Lemma merge_data_zero : ∀ this,
  let vSize := Z.of_nat (voxelTextureSize this) in
  (∀ i j, 0 ≤ i < vSize → 0 ≤ j < vSize * vSize * 4 →
     xTexture this i j = 0 ∧ yTexture this i j = 0 ∧ zTexture this i j = 0) →
  merge_data this = u8_new (vSize * vSize * vSize * 4).
Proof.
  intros this vSize Hzero.
  apply u8_ext.
  { apply Nat2Z.inj. rewrite merge_data_length, u8_new_length by nia. done. }
  intros p Hp. rewrite merge_data_length in Hp. fold vSize in Hp.
  rewrite u8_get_new.
  assert (Hsize : 0 < vSize) by nia.
  destruct (byte_decompose vSize Hsize p Hp)
    as (x & y & z & ch & Hx & Hy & Hz & Hch & ->).
  rewrite (merge_data_get vSize Hsize) by done.
  rewrite !texel_value by nia.
  destruct (Hzero (vSize - 1 - x) ((y * vSize + z) * 4 + ch)) as (-> & _ & _);
    [lia | nia |].
  destruct (Hzero y ((z * vSize + (vSize - 1 - x)) * 4 + ch)) as (_ & -> & _);
    [lia | nia |].
  destruct (Hzero z ((y * vSize + x) * 4 + ch)) as (_ & _ & ->);
    [lia | nia |].
  done.
Qed.

(** X17. If the three captures hold only zero bytes (an empty scene),
    the merged volume is all zero. *)
Theorem merge_empty_captures : ∀ this,
  let vSize := Z.of_nat (voxelTextureSize this) in
  (∀ i j, 0 ≤ i < vSize → 0 ≤ j < vSize * vSize * 4 →
     xTexture this i j = 0 ∧ yTexture this i j = 0 ∧ zTexture this i j = 0) →
  voxelTexture (merge this) = u8_new (vSize * vSize * vSize * 4).
Proof. intros this vSize Hzero. apply merge_data_zero. exact Hzero. Qed.

(** X22. Merging on a tracer as the constructor leaves it (nothing
    rendered yet) changes nothing: the volume stays the zeroed one. *)
Theorem merge_fresh_tracer : ∀ sceneScale cubeSize resolution,
  merge (constructor sceneScale cubeSize resolution)
  = constructor sceneScale cubeSize resolution.
Proof.
  intros s c n. unfold merge. rewrite merge_data_zero; [reflexivity |].
  intros i j _ _. simpl. done.
Qed.

(** X18. A channel of a merged voxel is zero exactly when it is zero in
    the three capture texels that map to the voxel: the merge keeps
    every non-zero byte of coverage. *)
Theorem merge_keeps_coverage : ∀ this x y z ch,
  let vSize := Z.of_nat (voxelTextureSize this) in
  0 ≤ x < vSize → 0 ≤ y < vSize → 0 ≤ z < vSize → 0 ≤ ch < 4 →
  u8_get (voxelTexture (merge this)) (voxel_index vSize x y z * 4 + ch) = 0 ↔
  texel vSize (xTexture this) (vSize - 1 - x) (y * vSize + z) ch = 0 ∧
  texel vSize (yTexture this) y (z * vSize + (vSize - 1 - x)) ch = 0 ∧
  texel vSize (zTexture this) z (y * vSize + x) ch = 0.
Proof.
  intros this x y z ch vSize Hx Hy Hz Hch. simpl.
  assert (Hsize : 0 < vSize) by lia.
  rewrite (merge_data_get vSize Hsize) by done.
  unfold spec_combine, spec_overwrite.
  repeat match goal with
         | |- context [?v =? 0] => destruct (Z.eqb_spec v 0)
         end; lia.
Qed.

(** X19. The X pass stores every byte of [data]: on two buffers of the
    right size it gives the same result, whatever they held. *)
Theorem passX_overwrites_all : ∀ (n : nat) tex (d1 d2 : Uint8Array),
  let vSize := Z.of_nat n in
  Z.of_nat (length d1) = vSize * vSize * vSize * 4 →
  Z.of_nat (length d2) = vSize * vSize * vSize * 4 →
  passX vSize tex d1 = passX vSize tex d2.
Proof.
  intros n tex d1 d2 vSize H1 H2.
  apply u8_ext.
  { rewrite !pass_length_X. lia. }
  intros p Hp. rewrite pass_length_X, H1 in Hp.
  assert (Hsize : 0 < vSize) by nia.
  destruct (byte_decompose vSize Hsize p Hp)
    as (x & y & z & ch & Hx & Hy & Hz & Hch & ->).
  rewrite !(passX_get vSize Hsize) by done. done.
Qed.

(** X16. For a resolution [N > 0] the frustums of [voxelize] tile the
    depth range from 3000 down to -3000: slice 0 has [near = 3000],
    slice [N - 1] has [far = -3000], and the far plane of every slice is
    the near plane of the next, the same expression. The two end values
    involve [0 / N = 0] and [N / N = 1] only, which doubles compute
    exactly. *)
Theorem voxelize_slabs_tile_cube : ∀ this,
  let vSize := Z.of_nat (voxelTextureSize this) in
  0 < vSize →
  (near (orthoCamera this 0) == 3000)%Q ∧
  (far (orthoCamera this (vSize - 1)) == -3000)%Q ∧
  ∀ i, far (orthoCamera this i) = near (orthoCamera this (i + 1)).
Proof.
  intros this vSize Hsize. unfold orthoCamera. simpl. fold vSize.
  assert (Hne : ¬ (inject_Z vSize == 0)%Q).
  { unfold Qeq. simpl. lia. }
  split; [| split].
  - unfold inject_Z at 1. field. exact Hne.
  - replace (vSize - 1 + 1) with vSize by lia. field. exact Hne.
  - reflexivity.
Qed.

(** ** Witnesses *)

Lemma voxelize_slabs_tile_cube_witness :
  (near (orthoCamera (constructor 1000 1 64) 0) == 3000)%Q ∧
  (far (orthoCamera (constructor 1000 1 64) (64 - 1)) == -3000)%Q ∧
  ∀ i,
    far (orthoCamera (constructor 1000 1 64) i)
    = near (orthoCamera (constructor 1000 1 64) (i + 1)).
Proof.
  apply (voxelize_slabs_tile_cube (constructor 1000 1 64)). simpl. lia.
Defined.

Lemma merge_empty_captures_witness :
  voxelTexture (merge (mkVCT 2 (λ _ _, 0) (λ _ _, 0) (λ _ _, 0) [7; 7; 7]))
  = u8_new (2 * 2 * 2 * 4).
Proof.
  apply (merge_empty_captures
           (mkVCT 2 (λ _ _, 0) (λ _ _, 0) (λ _ _, 0) [7; 7; 7])).
  intros i j _ _. repeat split.
Defined.

Lemma merge_keeps_coverage_witness :
  u8_get (voxelTexture (merge demo_tracer)) (voxel_index 2 0 1 0 * 4 + 1) = 0 ↔
  texel 2 demo_x (2 - 1 - 0) (1 * 2 + 0) 1 = 0 ∧
  texel 2 demo_y 1 (0 * 2 + (2 - 1 - 0)) 1 = 0 ∧
  texel 2 demo_z 0 (1 * 2 + 0) 1 = 0.
Proof. apply (merge_keeps_coverage demo_tracer 0 1 0 1); simpl; lia. Defined.

Lemma passX_overwrites_all_witness :
  passX 1 demo_x [1; 2; 3; 4] = passX 1 demo_x [0; 0; 0; 0].
Proof.
  apply (passX_overwrites_all 1 demo_x [1; 2; 3; 4] [0; 0; 0; 0]);
    reflexivity.
Defined.

(** * The cone tracer under rounding *)

Section RoundedFacts.

Open Scope R_scope.

Context (A : Rounded.arithmetic) (textureLod : vec3 → R → vec4).
Context (sceneScale voxelConeStepSize voxelWorldSize : R).
Context (position_world normal_world direction : vec3) (tanHalfAngle : R).

Local Abbreviation Step :=
  (Rounded.step A textureLod sceneScale voxelConeStepSize voxelWorldSize
     position_world normal_world direction tanHalfAngle).
Local Abbreviation Loop :=
  (Rounded.while_loop A textureLod sceneScale voxelConeStepSize
     voxelWorldSize position_world normal_world direction tanHalfAngle).
Local Abbreviation MaxDistance := (Rounded.maxDistance A voxelWorldSize).
Local Abbreviation NextDist :=
  (Rounded.next_dist A voxelConeStepSize voxelWorldSize tanHalfAngle).
Local Abbreviation DistAfter :=
  (Rounded.dist_after A voxelConeStepSize voxelWorldSize tanHalfAngle).

Lemma rounded_loop_exit fuel st :
  ¬ dist st < MaxDistance → Loop (S fuel) st = Some (st, []).
Proof.
  intros H. simpl. destruct (Rlt_dec _ _); [contradiction | reflexivity].
Qed.

Lemma rounded_step_dist st : dist (Step st) = NextDist (dist st).
Proof. reflexivity. Qed.

(** Once the test of the threshold succeeds after [m] iterations, the
    loop returns, from any state and with any fuel of at least [m],
    having made at most [m] iterations. *)
Lemma rounded_loop_stops m : ∀ st k,
  (1 ≤ m)%nat →
  alpha (Nat.iter m Step st) > Rounded.lit_0_95 A →
  ∃ st' lookups,
    Loop (m + k) st = Some (st', lookups) ∧ (length lookups ≤ m)%nat.
Proof.
  induction m as [| m IH]; intros st k Hm Ha; [lia |].
  change (S m + k)%nat with (S (m + k)). simpl.
  destruct (Rlt_dec _ _) as [Hd | Hd].
  - destruct (Rgt_dec _ _) as [Hb | Hb].
    + eexists _, _. split; [reflexivity | simpl; lia].
    + destruct m as [| m]; [simpl in Ha; contradiction |].
      rewrite Nat.iter_succ_r in Ha.
      destruct (IH (Step st) k ltac:(lia) Ha) as (st' & l & Hrun & Hlen).
      rewrite Hrun. eexists _, _. split; [reflexivity | simpl; lia].
  - eexists _, _. split; [reflexivity | simpl; lia].
Qed.

(** While every executed step advances [dist] by at least [delta],
    [fuel] such steps left to the limit let the loop return. *)
Lemma rounded_loop_returns delta fuel : ∀ n st,
  0 < delta →
  (∀ i, DistAfter i < MaxDistance → DistAfter i + delta <= DistAfter (S i)) →
  dist st = DistAfter n →
  MaxDistance - dist st <= INR fuel * delta →
  ∃ r, Loop (S fuel) st = Some r.
Proof.
  induction fuel as [| fuel IH]; intros n st Hdelta Hadv Hn Hleft.
  - simpl in Hleft. eexists. apply rounded_loop_exit. lra.
  - destruct (Rlt_dec (dist st) MaxDistance) as [Hd | Hd].
    + assert (Hn' : dist (Step st) = DistAfter (S n))
        by (rewrite rounded_step_dist, Hn; reflexivity).
      assert (Hstep : dist st + delta <= dist (Step st)).
      { rewrite Hn', Hn. apply Hadv. rewrite <- Hn. exact Hd. }
      destruct (IH (S n) (Step st) Hdelta Hadv Hn') as [[st' l] Hr].
      { rewrite S_INR in Hleft. lra. }
      change (Loop (S (S fuel)) st) with
        (if Rlt_dec (dist st) MaxDistance then
           if Rgt_dec (alpha (Step st)) (Rounded.lit_0_95 A) then
             Some (Step st,
                   [(Rounded.sample_coord A sceneScale voxelWorldSize
                       position_world normal_world direction (dist st),
                     Rounded.mip A voxelWorldSize tanHalfAngle (dist st))])
           else
             match Loop (S fuel) (Step st) with
             | Some (st'', lookups) =>
                 Some (st'',
                       (Rounded.sample_coord A sceneScale voxelWorldSize
                          position_world normal_world direction (dist st),
                        Rounded.mip A voxelWorldSize tanHalfAngle (dist st))
                       :: lookups)
             | None => None
             end
         else Some (st, [])).
      destruct (Rlt_dec _ _); [| contradiction].
      destruct (Rgt_dec _ _); [eauto |]. rewrite Hr. eauto.
    + eexists. apply rounded_loop_exit. assumption.
Qed.

(** While every executed step advances [dist] by at least [delta],
    every iteration but the last started at least [delta] before the
    limit. *)
Lemma rounded_loop_iterations delta fuel : ∀ n st st' lookups,
  (∀ i, DistAfter i < MaxDistance → DistAfter i + delta <= DistAfter (S i)) →
  0 <= delta → dist st = DistAfter n →
  Loop fuel st = Some (st', lookups) → lookups ≠ [] →
  dist st + (INR (length lookups) - 1) * delta < MaxDistance.
Proof.
  induction fuel as [| fuel IH];
    intros n st st' lookups Hadv Hdelta Hn Hrun Hne; [discriminate |].
  simpl in Hrun. destruct (Rlt_dec _ _) as [Hd | Hd].
  - assert (Hn' : dist (Step st) = DistAfter (S n))
      by (rewrite rounded_step_dist, Hn; reflexivity).
    assert (Hstep : dist st + delta <= dist (Step st)).
    { rewrite Hn', Hn. apply Hadv. rewrite <- Hn. exact Hd. }
    destruct (Rgt_dec _ _).
    + inversion Hrun; subst. simpl. lra.
    + destruct (Loop fuel (Step st)) as [[st2 l2] |] eqn:E; [| discriminate].
      inversion Hrun; subst.
      destruct l2 as [| x l2]; [simpl; lra |].
      assert (Hne2 : x :: l2 ≠ []) by discriminate.
      pose proof (IH _ _ _ _ Hadv Hdelta Hn' E Hne2) as Hb.
      change (length (_ :: x :: l2)) with (S (length (x :: l2))).
      rewrite S_INR. lra.
  - inversion Hrun; subst. contradiction.
Qed.

End RoundedFacts.

(** With exact operators the second model is the first. *)
Lemma rounded_exact_step textureLod sceneScale s w pos nrm dir t st :
  Rounded.step Rounded.exact textureLod sceneScale s w pos nrm dir t st
  = step textureLod sceneScale s w pos nrm dir t st.
Proof.
  assert (Hc : ∀ d, Rounded.sample_coord Rounded.exact sceneScale w pos nrm
                      dir d = sample_coord sceneScale w pos nrm dir d).
  { intros d. unfold Rounded.sample_coord, sample_coord.
    assert (Hs : Rounded.startPos Rounded.exact w pos nrm = startPos w pos nrm).
    { unfold Rounded.startPos, startPos, Rounded.vadd, Rounded.vscale_r,
        vec3_add, vec3_scale. simpl. f_equal; ring. }
    rewrite Hs. reflexivity. }
  unfold Rounded.step, step. rewrite Hc. reflexivity.
Qed.

Lemma rounded_exact_loop textureLod sceneScale s w pos nrm dir t fuel :
  ∀ st,
  Rounded.while_loop Rounded.exact textureLod sceneScale s w pos nrm dir t
    fuel st
  = while_loop textureLod sceneScale s w pos nrm dir t fuel st.
Proof.
  assert (Hc : ∀ d, Rounded.sample_coord Rounded.exact sceneScale w pos nrm
                      dir d = sample_coord sceneScale w pos nrm dir d).
  { intros d. unfold Rounded.sample_coord, sample_coord.
    assert (Hs : Rounded.startPos Rounded.exact w pos nrm = startPos w pos nrm).
    { unfold Rounded.startPos, startPos, Rounded.vadd, Rounded.vscale_r,
        vec3_add, vec3_scale. simpl. f_equal; ring. }
    rewrite Hs. reflexivity. }
  induction fuel as [| fuel IH]; intros st; [reflexivity |].
  simpl. rewrite rounded_exact_step, IH, Hc. reflexivity.
Qed.

(** Exact operators advance [dist] by at least
    [voxelWorldSize * voxelConeStepSize]. *)
Lemma exact_advances s w t n :
  (0 <= s)%R →
  (Rounded.dist_after Rounded.exact s w t n + w * s
   <= Rounded.dist_after Rounded.exact s w t (S n))%R.
Proof.
  intros Hs. change (Rounded.dist_after Rounded.exact s w t (S n)) with
    (Rounded.next_dist Rounded.exact s w t
       (Rounded.dist_after Rounded.exact s w t n)).
  generalize (Rounded.dist_after Rounded.exact s w t n) as d. intros d.
  unfold Rounded.next_dist, Rounded.diameter. simpl.
  pose proof (Rmax_l w (2 * t * d)). nra.
Qed.

(** In binary32 the literal [0.95] is [15938355 * 2^-24], below 0.95. *)
Example binary32_literal_0_95 :
  Binary32.literal 95 100 = SpecFloat.S754_finite false 15938355 (-24) ∧
  (Rounded.lit_0_95 Rounded.exact_with_binary32_literal < 0.95)%R.
Proof. split; [vm_compute; reflexivity | simpl; lra]. Qed.

(** In binary32 a small step is absorbed: with
    [voxelWorldSize = 46.875], [tanHalfAngle = 0.577] and
    [voxelConeStepSize = 2^-27] the distance after the first step is
    the distance before it, which is below [50 * voxelWorldSize]. *)
Example binary32_step_absorbed :
  let w := Binary32.literal 46875 1000 in
  Binary32.next_dist w (Binary32.literal 577 1000) (Binary32.of_Z 1 (-27)) w
  = w ∧
  SpecFloat.SFltb w (Binary32.mul (Binary32.of_Z 50 0) w) = true.
Proof. vm_compute. split; reflexivity. Qed.

(** A distance below the limit that the step leaves in place is never
    left. *)
Lemma binary32_stall w t s :
  SpecFloat.SFltb w (Binary32.mul (Binary32.of_Z 50 0) w) = true →
  Binary32.next_dist w t s w = w →
  ∀ fuel, Binary32.iterations w t s fuel w = None.
Proof.
  intros Hlt Hfix fuel. induction fuel as [| fuel IH]; [reflexivity |].
  cbn [Binary32.iterations]. rewrite Hlt, Hfix, IH. reflexivity.
Qed.

(** With those values the loop of a trace in an empty volume, whose
    alpha stays 0, does not end, whatever the fuel. *)
Example binary32_run_never_ends :
  ∀ fuel,
    Binary32.iterations (Binary32.literal 46875 1000)
      (Binary32.literal 577 1000) (Binary32.of_Z 1 (-27)) fuel
      (Binary32.literal 46875 1000) = None.
Proof. apply binary32_stall; vm_compute; reflexivity. Qed.

(** With [voxelWorldSize = 1], [voxelConeStepSize = 0.5] and a cone of
    zero aperture every sum is exact in binary32: the loop makes 98
    iterations, within [50 / 0.5]. *)
Example binary32_run_within_bound :
  Binary32.iterations (Binary32.of_Z 1 0) (Binary32.of_Z 0 0)
    (Binary32.of_Z 1 (-1)) 200 (Binary32.of_Z 1 0) = Some 98%nat.
Proof. vm_compute. reflexivity. Qed.


(** C5. Once the accumulated alpha has reached 0.95 at the end of
    iteration [m], [coneTrace] returns with at most [m] iterations and
    [m] texture lookups, with any fuel of at least [m] and whatever
    distance is left to the limit. The test [alpha > 0.95] is strict
    against the float of the literal, which lies below 0.95 (in
    binary32 it is [15938355 * 2^-24]); the operators are arbitrary. *)
Theorem coneTrace_stops_at_threshold :
  ∀ (A : Rounded.arithmetic) (textureLod : vec3 → R → vec4)
    (sceneScale voxelConeStepSize voxelWorldSize : R)
    (position_world normal_world direction : vec3) (tanHalfAngle : R)
    (m k : nat),
  (Rounded.lit_0_95 A < 0.95)%R →
  (1 ≤ m)%nat →
  (alpha (Nat.iter m
            (Rounded.step A textureLod sceneScale voxelConeStepSize
               voxelWorldSize position_world normal_world direction
               tanHalfAngle)
            (initial voxelWorldSize)) >= 0.95)%R →
  ∃ res occ lookups,
    Rounded.coneTrace A textureLod sceneScale voxelConeStepSize voxelWorldSize
      position_world normal_world direction tanHalfAngle (m + k)
    = Some (res, occ, lookups) ∧
    (length lookups ≤ m)%nat.
Proof.
  intros A textureLod sceneScale s w pos nrm dir t m k Hlit Hm Ha.
  destruct (rounded_loop_stops A textureLod sceneScale s w pos nrm dir t m
              (initial w) k Hm ltac:(lra)) as (st' & l & Hrun & Hlen).
  unfold Rounded.coneTrace. rewrite Hrun. eauto.
Qed.

(** ** Witnesses *)


Lemma coneTrace_stops_at_threshold_witness :
  ∃ res occ lookups,
    Rounded.coneTrace Rounded.exact_with_binary32_literal
      (const_volume opaque_texel) 1 1 1 origin origin origin 0 (1 + 5)
    = Some (res, occ, lookups) ∧
    (length lookups ≤ 1)%nat.
Proof.
  apply (coneTrace_stops_at_threshold Rounded.exact_with_binary32_literal
           (const_volume opaque_texel) 1 1 1 origin origin origin 0 1 5).
  - simpl. lra.
  - lia.
  - simpl. lra.
Defined.
